(** * Synthetic fraud network: generation and collusion augmentation

    A shallow embedding of [syntheticdata.py] ([generate_synthetic_network])
    and of [assign_roles_and_visualize.py] ([add_fraud_accomplice_edges]).

    The two scripts are written against two libraries that are not part of
    the repository: [networkx] (the graph object, the Barabasi-Albert
    generator) and Python's [random] module.  The graph object is modelled
    concretely, the way [networkx.Graph] stores it (an ordered node
    dictionary and a dictionary of adjacency dictionaries).  The random
    source and the Barabasi-Albert generator are interfaces: every theorem
    holds for any implementation that meets their documented contract, and
    one executable implementation of each is given at the end of the
    definitions so that the functions can be run. *)

From Stdlib Require Import ZArith QArith Lia Lqa.
From stdpp Require Import base option list list_numbers gmap sets strings fin_maps.

Local Open Scope string_scope.
Local Open Scope Z_scope.
#[local] Set Warnings "-clear-no-such-hyp".

(** ** Values, exceptions, outcomes *)

(** Node identifiers.  [barabasi_albert_graph] names its nodes
    [0 .. n-1]; the augmentation only uses identifiers as dictionary keys. *)
Abbreviation node := nat.

(** An attribute value: the scripts store strings (the role labels) and
    floats (beliefs, weights).  Floats are modelled as rationals that are
    stored and copied, never rounded. *)
Inductive value : Type :=
  | VStr (s : string)
  | VNum (q : Q).

(** The Python exceptions the two functions can raise. *)
Inductive error : Type :=
  | ZeroDivisionError
  | NetworkXError
  | ValueError
  | KeyError (key : string)
  | IndexError.

(** What a call does: it returns, it raises, or it is still running when
    the fuel given to the [while] loop is spent. *)
Inductive outcome (A : Type) : Type :=
  | Ok (a : A)
  | Raise (e : error)
  | OutOfFuel.
Arguments Ok {A} a.
Arguments Raise {A} e.
Arguments OutOfFuel {A}.

#[global] Instance outcome_ret : MRet outcome := λ A a, Ok a.
#[global] Instance outcome_bind : MBind outcome := λ A B f m,
  match m with
  | Ok a => f a
  | Raise e => Raise e
  | OutOfFuel => OutOfFuel
  end.

(** [d[key]] on a Python dictionary. *)
Definition getitem {V} (d : gmap string V) (key : string) : outcome V :=
  match d !! key with
  | Some v => Ok v
  | None => Raise (KeyError key)
  end.

(** ** The networkx graph object *)

(** [g_nodes] is the key order of [G._node], [g_attr] its content, and
    [g_adj] is [G._adj]: for each node the dictionary of its neighbours,
    each with the attribute dictionary of the edge. *)
Record Graph : Type := mkGraph {
  g_nodes : list node;
  g_attr : gmap node (gmap string value);
  g_adj : gmap node (gmap node (gmap string value))
}.

(** [G._adj[u]], empty when [u] has no entry. *)
Definition neighbors (G : Graph) (u : node) : gmap node (gmap string value) :=
  default ∅ (g_adj G !! u).

(** [G.has_edge(u, v)]: [v in G._adj[u]], and [False] on a [KeyError]. *)
Definition has_edge (G : Graph) (u v : node) : bool :=
  bool_decide (is_Some (neighbors G u !! v)).

(** [G.add_node(n)] with no attributes, as [add_edge] does it for a missing
    end point. *)
Definition add_node (n : node) (G : Graph) : Graph :=
  if bool_decide (n ∈ g_nodes G) then G
  else {| g_nodes := g_nodes G ++ [n];
          g_attr := <[n := ∅]> (g_attr G);
          g_adj := <[n := ∅]> (g_adj G) |}.

(** [G.add_edge(u, v, **attr)]: missing end points are added, the edge's
    attribute dictionary is the old one (if any) updated with [attr], and
    it is stored under both orientations. *)
Definition add_edge (u v : node) (attr : gmap string value) (G : Graph) : Graph :=
  let G1 := add_node v (add_node u G) in
  let datadict := attr ∪ default ∅ (neighbors G1 u !! v) in
  let adj1 := <[u := <[v := datadict]> (neighbors G1 u)]> (g_adj G1) in
  let adj2 := <[v := <[u := datadict]> (default ∅ (adj1 !! v))]> adj1 in
  {| g_nodes := g_nodes G1; g_attr := g_attr G1; g_adj := adj2 |}.

(** What a self-loop adds to the degree of its node. *)
Definition self_loop (G : Graph) (n : node) : nat :=
  if bool_decide (is_Some (neighbors G n !! n)) then 1%nat else 0%nat.

(** [G.degree(n)]: a self-loop counts twice. *)
Definition degree (G : Graph) (n : node) : nat :=
  (size (neighbors G n) + self_loop G n)%nat.

(** [G.number_of_edges()]: half the sum of the degrees. *)
Definition number_of_edges (G : Graph) : nat :=
  (sum_list_with (degree G) (g_nodes G) `div` 2)%nat.

(** [G.number_of_nodes()]. *)
Definition number_of_nodes (G : Graph) : nat := length (g_nodes G).

(** The neighbours of [n] that have not reported yet.  Within one
    adjacency dictionary the order is that of [map_to_list]; the scripts
    only build a set from the view. *)
Definition fresh_neighbors (G : Graph) (seen : gset node) (n : node) : list node :=
  filter (λ nbr, nbr ∉ seen) (map_to_list (neighbors G n)).*1.

(** The edge view [G.edges()]: every node in turn reports the neighbours
    that have not reported yet. *)
Fixpoint edges_from (G : Graph) (seen : gset node) (ns : list node) : list (node * node) :=
  match ns with
  | [] => []
  | n :: ns' =>
      ((λ nbr, (n, nbr)) <$> fresh_neighbors G seen n)
      ++ edges_from G ({[n]} ∪ seen) ns'
  end.

Definition edges (G : Graph) : list (node * node) := edges_from G ∅ (g_nodes G).


(** [G.nodes[n].get(key)]. *)
Definition node_get (G : Graph) (n : node) (key : string) : option value :=
  g_attr G !! n ≫= λ d, d !! key.

(** [G.nodes[n][key] = v]; a [KeyError] when [n] is not a node. *)
Definition node_set (G : Graph) (n : node) (key : string) (v : value) : outcome Graph :=
  match g_attr G !! n with
  | Some d => Ok {| g_nodes := g_nodes G;
                    g_attr := <[n := <[key := v]> d]> (g_attr G);
                    g_adj := g_adj G |}
  | None => Raise (KeyError "node")
  end.

(** [x == s] for an attribute read with [.get] and a string literal. *)
Definition is_str (x : option value) (s : string) : bool :=
  match x with
  | Some (VStr s') => bool_decide (s' = s)
  | _ => false
  end.

(** ** The random module *)

(** The process-wide generator of Python's [random] module, with its state
    passed explicitly.  [R] is the type of generator states.  The laws are
    the documented contract of each function:
    - [random.seed(a)] resets the state to one that depends on [a] only;
    - [random.sample(population, k)] returns [k] elements taken at distinct
      positions of the population, and raises [ValueError] when [k] is
      negative or larger than the population;
    - [random.choices(population, weights, k=1)[0]] and
      [random.choice(seq)] return an element of their population. *)
Class RandomSource (R : Type) : Type := {
  seed : Z → R;
  sample : ∀ {A : Type}, R → list A → Z → outcome (list A * R);
  uniform : R → Q → Q → Q * R;
  choices : R → list string → list Q → outcome (string * R);
  choice : R → list string → outcome (string * R);
  sample_spec : ∀ {A : Type} (r : R) (population : list A) (k : Z),
    match sample r population k with
    | Ok (picked, _) => picked ⊆+ population ∧ Z.of_nat (length picked) = k
    | Raise e => e = ValueError ∧ (k < 0 ∨ Z.of_nat (length population) < k)
    | OutOfFuel => False
    end;
  choices_elem : ∀ r population weights x r',
    choices r population weights = Ok (x, r') → x ∈ population;
  choice_elem : ∀ r population x r',
    choice r population = Ok (x, r') → x ∈ population
}.

(** ** Well-formed graphs *)

(** What every [networkx.Graph] satisfies: node keys are unique and each
    has an attribute dictionary, adjacency only mentions nodes of the graph,
    and an edge is stored under both orientations. *)
Record graph_wf (G : Graph) : Prop := {
  wf_nodup : NoDup (g_nodes G);
  wf_attr : ∀ n, n ∈ g_nodes G ↔ is_Some (g_attr G !! n);
  wf_closed : ∀ u v, is_Some (neighbors G u !! v) → u ∈ g_nodes G ∧ v ∈ g_nodes G;
  wf_sym : ∀ u v, neighbors G u !! v = neighbors G v !! u
}.

(** No node is its own neighbour. *)
Definition loop_free (G : Graph) : Prop := ∀ n, has_edge G n n = false.

(** ** The Barabasi-Albert generator *)

(** [nx.barabasi_albert_graph(n, m)], drawing from the process-wide
    generator.  Its contract: it raises [NetworkXError] unless
    [1 <= m < n]; otherwise it returns a well-formed graph on the nodes
    [0 .. n-1], in that order, without self-loops. *)
Class BarabasiAlbert (R : Type) : Type := {
  barabasi_albert_graph : Z → Z → R → outcome (Graph * R);
  barabasi_albert_spec : ∀ n m r,
    match barabasi_albert_graph n m r with
    | Ok (G, _) =>
        1 ≤ m < n ∧ g_nodes G = seq 0 (Z.to_nat n) ∧ graph_wf G ∧ loop_free G
    | Raise e => e = NetworkXError ∧ (m < 1 ∨ n ≤ m)
    | OutOfFuel => False
    end
}.

(** ** syntheticdata.py *)

Definition categories : list string := ["Fraud"; "Accomplice"; "Honest"].

Definition default_initial_belief : gmap string Q :=
  {[ "Fraud" := 1 # 3; "Accomplice" := 1 # 3; "Honest" := 1 # 3 ]}.

Definition default_state_distribution : gmap string Q :=
  {[ "Fraud" := 1 # 10; "Accomplice" := 2 # 10; "Honest" := 7 # 10 ]}.

(** [a // b] on Python integers. *)
Definition floordiv (a b : Z) : outcome Z :=
  if bool_decide (b = 0) then Raise ZeroDivisionError else Ok (a `div` b).

(** A [for] loop over a list, threading the loop state; an exception in the
    body ends the loop. *)
Fixpoint for_each {A S : Type} (xs : list A) (body : A → S → outcome S) (s : S)
  : outcome S :=
  match xs with
  | [] => Ok s
  | x :: xs' => s' ← body x s; for_each xs' body s'
  end.

Section Pipeline.
Context {R : Type} `{RandomSource R} `{BarabasiAlbert R}.

(** Step 2, the top-up loop (lines 38-42).  [fuel] bounds the number of
    iterations that are run. *)
Fixpoint top_up (fuel : nat) (target_edges : Z) (nodes_list : list node)
    (G : Graph) (existing_edges : gset (node * node)) (r : R)
  : outcome (Graph * gset (node * node) * R) :=
  if bool_decide (Z.of_nat (number_of_edges G) < target_edges) then
    match fuel with
    | O => OutOfFuel
    | S fuel' =>
        '(picked, r1) ← sample r nodes_list 2;
        match picked with
        | [node1; node2] =>
            if bool_decide ((node1, node2) ∉ existing_edges)
               && bool_decide ((node2, node1) ∉ existing_edges)
            then
              let '(w, r2) := uniform r1 (1 # 10) 1 in
              top_up fuel' target_edges nodes_list
                (add_edge node1 node2 {[ "weight" := VNum w ]} G)
                ({[ (node1, node2) ]} ∪ existing_edges) r2
            else top_up fuel' target_edges nodes_list G existing_edges r1
        | _ => Raise ValueError
        end
    end
  else Ok (G, existing_edges, r).

(** Steps 1 and 2: the base graph and the top-up (lines 32-42). *)
Definition generate_topology (fuel : nat) (num_nodes target_edges : Z) (r : R)
  : outcome (Graph * R) :=
  q ← floordiv target_edges num_nodes;
  let m := Z.max 1 q in
  '(G, r1) ← barabasi_albert_graph num_nodes m r;
  let existing_edges : gset (node * node) := list_to_set (edges G) in
  let nodes_list := g_nodes G in
  '(G', _, r2) ← top_up fuel target_edges nodes_list G existing_edges r1;
  Ok (G', r2).

(** The body of the loop of step 3 (lines 47-61). *)
Definition assign_node (initial_belief state_distribution : gmap string Q)
    (n : node) (st : Graph * gmap string Z * R)
  : outcome (Graph * gmap string Z * R) :=
  let '(G, state_counts, r) := st in
  w_fraud ← getitem state_distribution "Fraud";
  w_accomplice ← getitem state_distribution "Accomplice";
  w_honest ← getitem state_distribution "Honest";
  '(true_state, r1) ← choices r categories [w_fraud; w_accomplice; w_honest];
  G1 ← node_set G n "true_state" (VStr true_state);
  b_fraud ← getitem initial_belief "Fraud";
  G2 ← node_set G1 n "belief_fraud" (VNum b_fraud);
  b_accomplice ← getitem initial_belief "Accomplice";
  G3 ← node_set G2 n "belief_accomplice" (VNum b_accomplice);
  b_honest ← getitem initial_belief "Honest";
  G4 ← node_set G3 n "belief_honest" (VNum b_honest);
  '(state, r2) ← choice r1 categories;
  G5 ← node_set G4 n "state" (VStr state);
  c ← getitem state_counts true_state;
  Ok (G5, <[true_state := c + 1]> state_counts, r2).

(** Step 3: roles and beliefs for every node (lines 45-61). *)
Definition assign_roles (initial_belief state_distribution : gmap string Q)
    (G : Graph) (r : R) : outcome (Graph * gmap string Z * R) :=
  let state_counts : gmap string Z :=
    {[ "Fraud" := 0; "Accomplice" := 0; "Honest" := 0 ]} in
  for_each (g_nodes G) (assign_node initial_belief state_distribution)
    (G, state_counts, r).

(** [generate_synthetic_network].  [ambient] is the state of the
    process-wide generator when the function is entered; line 29 replaces
    it.  Steps 4 to 6 print a report, set graph-level metadata and save the
    file; of these only the two divisions can change the outcome.  The
    result is the nodes, edges and attributes of the graph that is saved,
    the role counts that are reported and the generator state that is left
    behind.  What Step 5 stores in [G.graph] is not part of it: see
    [graph_metadata]. *)
Definition generate_synthetic_network (fuel : nat) (num_nodes target_edges : Z)
    (initial_belief state_distribution : option (gmap string Q)) (ambient : R)
  : outcome (Graph * gmap string Z * R) :=
  let initial_belief := default default_initial_belief initial_belief in
  let state_distribution := default default_state_distribution state_distribution in
  let r := seed 42 in
  '(G, r1) ← generate_topology fuel num_nodes target_edges r;
  '(G', state_counts, r2) ← assign_roles initial_belief state_distribution G r1;
  let total_nodes := map_fold (λ _ c acc, c + acc) 0 state_counts in
  _ ← (if bool_decide (total_nodes = 0) then Raise ZeroDivisionError else Ok ());
  _ ← (if bool_decide (num_nodes = 0) then Raise ZeroDivisionError else Ok ());
  Ok (G', state_counts, r2).

End Pipeline.

(** The integer entries that Step 5 stores in [G.graph] (lines 73-74).
    Lines 75-76 add the [str] renderings of the two distributions. *)
Definition graph_metadata (num_nodes target_edges : Z) : gmap string Z :=
  {[ "num_nodes" := num_nodes; "target_edges" := target_edges ]}.

(** [sum(dict(G.degree()).values()) / num_nodes] (line 79), as an exact
    fraction. *)
Definition avg_degree (G : Graph) (num_nodes : Z) : outcome Q :=
  if bool_decide (num_nodes = 0) then Raise ZeroDivisionError
  else Ok (inject_Z (Z.of_nat (sum_list_with (degree G) (g_nodes G)))
           / inject_Z num_nodes)%Q.

(** ** assign_roles_and_visualize.py *)

(** [G.nodes[n].get("true_state") == "Accomplice"] (line 51). *)
Definition is_accomplice (G : Graph) (n : node) : Prop :=
  is_str (node_get G n "true_state") "Accomplice" = true.

(** [G.nodes[n].get("true_state") == "Fraud"] (line 49). *)
Definition is_fraud (G : Graph) (n : node) : Prop :=
  is_str (node_get G n "true_state") "Fraud" = true.

#[global] Instance is_accomplice_dec G n : Decision (is_accomplice G n).
Proof. unfold is_accomplice. apply _. Defined.

#[global] Instance is_fraud_dec G n : Decision (is_fraud G n).
Proof. unfold is_fraud. apply _. Defined.

(** The accomplice list that line 50 builds. *)
Definition accomplices (G : Graph) : list node := filter (is_accomplice G) (g_nodes G).

(** Lines 57-58: the guarded insertion. *)
Definition link (n : node) (G : Graph) (accomplice : node) : Graph :=
  if has_edge G n accomplice then G else add_edge n accomplice ∅ G.

Section Augmentation.
Context {R : Type} `{RandomSource R}.

(** The body of the outer loop (lines 49-58). *)
Definition augment_node (max_accomplice_edges : Z) (n : node) (st : Graph * R)
  : outcome (Graph * R) :=
  let '(G, r) := st in
  if is_str (node_get G n "true_state") "Fraud" then
    let accomplices := accomplices G in
    '(accomplice_neighbors, r1) ←
      sample r accomplices (Z.min max_accomplice_edges (Z.of_nat (length accomplices)));
    Ok (foldl (link n) G accomplice_neighbors, r1)
  else Ok (G, r).

(** [add_fraud_accomplice_edges(G, max_accomplice_edges)]: the graph after
    the pass and the generator state left behind.  The loop runs over the
    node keys, which no iteration changes. *)
Definition add_fraud_accomplice_edges (G : Graph) (max_accomplice_edges : Z) (r : R)
  : outcome (Graph * R) :=
  for_each (g_nodes G) (augment_node max_accomplice_edges) (G, r).

End Augmentation.

(** [color_map.get(G.nodes[node].get(attribute, default_color), default_color)]
    (line 34), for a colour map keyed by strings: a float attribute is no
    key of it, and a missing attribute is looked up as [default_color]. *)
Definition node_color (G : Graph) (attribute : string)
    (color_map : gmap string string) (default_color : string) (n : node) : string :=
  match node_get G n attribute with
  | Some (VStr s) => default default_color (color_map !! s)
  | Some (VNum _) => default_color
  | None => default default_color (color_map !! default_color)
  end.

(** [generate_node_colors(G, attribute, color_map, default_color)]
    (lines 33-36). *)
Definition generate_node_colors (G : Graph) (attribute : string)
    (color_map : gmap string string) (default_color : string) : list string :=
  node_color G attribute color_map default_color <$> g_nodes G.

(** The colour map of the main block (line 111). *)
Definition main_color_map : gmap string string :=
  {[ "Fraud" := "red"; "Accomplice" := "orange"; "Honest" := "green" ]}.

(** ** Properties the statements are written with *)

(** [extends G G']: same node keys, same node attributes, and every
    adjacency entry of [G] is still an entry of [G']. *)
Record extends (G G' : Graph) : Prop := {
  ext_nodes : g_nodes G' = g_nodes G;
  ext_attr : g_attr G' = g_attr G;
  ext_adj : ∀ x y, is_Some (neighbors G x !! y) → is_Some (neighbors G' x !! y)
}.

(** [relabels G G']: same node keys and adjacency, and the same nodes have
    an attribute dictionary. *)
Record relabels (G G' : Graph) : Prop := {
  rl_nodes : g_nodes G' = g_nodes G;
  rl_adj : g_adj G' = g_adj G;
  rl_dom : ∀ m, is_Some (g_attr G' !! m) ↔ is_Some (g_attr G !! m)
}.

(** No unordered pair is listed twice: the view has no repeated entry, and
    it never holds both orientations of an edge between two nodes. *)
Definition no_duplicate_edges (G : Graph) : Prop :=
  NoDup (edges G) ∧ ∀ u v, (u, v) ∈ edges G → (v, u) ∈ edges G → u = v.

(** The loop invariant: a well-formed graph without self-loops whose node
    keys are the list the loop samples from. *)
Record simple_on (nodes_list : list node) (G : Graph) : Prop := {
  so_nodes : g_nodes G = nodes_list;
  so_wf : graph_wf G;
  so_loop_free : loop_free G
}.

(** The attribute dictionary of a labelled node: both labels are one of
    the three categories and the belief fields are the entries of the
    configured prior. *)
Record labelled (initial_belief : gmap string Q) (d : gmap string value) : Prop := {
  lab_true_state : ∃ s, d !! "true_state" = Some (VStr s) ∧ s ∈ categories;
  lab_state : ∃ s, d !! "state" = Some (VStr s) ∧ s ∈ categories;
  lab_fraud : ∃ q, initial_belief !! "Fraud" = Some q ∧
                   d !! "belief_fraud" = Some (VNum q);
  lab_accomplice : ∃ q, initial_belief !! "Accomplice" = Some q ∧
                        d !! "belief_accomplice" = Some (VNum q);
  lab_honest : ∃ q, initial_belief !! "Honest" = Some q ∧
                    d !! "belief_honest" = Some (VNum q)
}.

Definition node_labelled (initial_belief : gmap string Q) (G : Graph) (n : node) : Prop :=
  ∃ d, g_attr G !! n = Some d ∧ labelled initial_belief d.

(** [linked k G n]: [n] is adjacent to [min(k, |accomplices|)] distinct
    Accomplice nodes. *)
Definition linked (k : Z) (G : Graph) (n : node) : Prop :=
  ∃ picked : list node,
    NoDup picked ∧
    Z.of_nat (length picked) = Z.min k (Z.of_nat (length (accomplices G))) ∧
    ∀ a, a ∈ picked → is_accomplice G a ∧ has_edge G n a = true.

(** The number of edges from [n] to Accomplice nodes. *)
Definition accomplice_edges (G : Graph) (n : node) : nat :=
  size (filter (λ p, is_accomplice G p.1) (neighbors G n)).

(** The edges from [n] to Accomplice nodes that [G'] has and [G] has not. *)
Definition new_accomplice_edges (G G' : Graph) (n : node) : nat :=
  size (filter (λ p, is_accomplice G' p.1 ∧ neighbors G n !! p.1 = None)
          (neighbors G' n)).


(** The sum of the three entries of a prior, when it has all three. *)
Definition prior_sum (initial_belief : gmap string Q) : option Q :=
  a ← initial_belief !! "Fraud";
  b ← initial_belief !! "Accomplice";
  c ← initial_belief !! "Honest";
  Some (a + b + c)%Q.

(** The first category that a distribution lacks, in the order in which
    line 50-52 read them. *)
Definition first_missing (d : gmap string Q) : option string :=
  head (filter (λ key, d !! key = None) categories).

(** Whether a call returned. *)
Definition returned {A} (o : outcome A) : bool :=
  match o with
  | Ok _ => true
  | _ => false
  end.

(** The lookup set of line 36 and the adjacency agree. *)
Definition tracks (existing_edges : gset (node * node)) (G : Graph) : Prop :=
  ∀ u v, has_edge G u v = true ↔ (u, v) ∈ existing_edges ∨ (v, u) ∈ existing_edges.

(** A value that [random.uniform(0.1, 1.0)] returns in some state. *)
Definition drawn_weight {R : Type} `{RandomSource R} (w : Q) : Prop :=
  ∃ r : R, (uniform r (1 # 10) 1).1 = w.

(** [G'] is [G] with new edges whose only attribute is a weight that
    satisfies [P]; the edges of [G] keep their data. *)
Definition topped_up (P : Q → Prop) (G G' : Graph) : Prop :=
  ∀ x y,
    neighbors G' x !! y = neighbors G x !! y ∨
    (neighbors G x !! y = None ∧
     ∃ w, P w ∧ neighbors G' x !! y = Some {[ "weight" := VNum w ]}).

(** The number of nodes whose [true_state] is [c]. *)
Definition count_true_state (G : Graph) (c : string) : nat :=
  length (filter (λ n, is_str (node_get G n "true_state") c = true) (g_nodes G)).

(** [G'] is [G] with new edges that carry no data and join a Fraud node
    and an Accomplice node; the edges of [G] keep their data. *)
Definition augmented (G G' : Graph) : Prop :=
  ∀ x y,
    neighbors G' x !! y = neighbors G x !! y ∨
    (neighbors G x !! y = None ∧ neighbors G' x !! y = Some ∅ ∧
     (is_fraud G x ∧ is_accomplice G y ∨ is_fraud G y ∧ is_accomplice G x)).

(** The Fraud nodes, in node order. *)
Definition frauds (G : Graph) : list node := filter (is_fraud G) (g_nodes G).

(** ** An executable random source and generator *)

Module Lcg.

(** A linear congruential generator; the state is the last output. *)
Definition step (s : Z) : Z := (1103515245 * s + 12345) `mod` 2147483648.

(** An integer below [n], from the high bits. *)
Definition randbelow (s : Z) (n : nat) : nat * Z :=
  (Z.to_nat ((step s `div` 65536) `mod` Z.of_nat n), step s).

(** A fraction in [0, 1). *)
Definition random (s : Z) : Q * Z :=
  (Qmake (step s `div` 65536) 32768, step s).

Arguments randbelow : simpl never.
Arguments random : simpl never.

(** [k] elements taken one after the other out of the pool. *)
Fixpoint draw {A} (k : nat) (pool : list A) (s : Z) : list A * Z :=
  match k with
  | O => ([], s)
  | S k' =>
      let '(j, s1) := randbelow s (length pool) in
      match pool !! j with
      | Some x => let '(xs, s2) := draw k' (delete j pool) s1 in (x :: xs, s2)
      | None => ([], s1)
      end
  end.

Definition sample {A} (s : Z) (population : list A) (k : Z) : outcome (list A * Z) :=
  if bool_decide (k < 0 ∨ Z.of_nat (length population) < k) then Raise ValueError
  else Ok (draw (Z.to_nat k) population s).

Definition uniform (s : Z) (a b : Q) : Q * Z :=
  let '(x, s1) := random s in (Qred (a + (b - a) * x), s1).

(** The first element whose cumulative weight exceeds [x]; the last one
    when none does. *)
Fixpoint pick (population : list string) (weights : list Q) (x : Q) : option string :=
  match population, weights with
  | [p], _ => Some p
  | p :: population', w :: weights' =>
      if Qlt_le_dec x w then Some p else pick population' weights' (x - w)
  | _, _ => None
  end.

Definition choices (s : Z) (population : list string) (weights : list Q)
  : outcome (string * Z) :=
  let total := foldr Qplus 0%Q weights in
  if bool_decide (length population ≠ length weights) then Raise ValueError
  else if Qlt_le_dec 0 total then
    let '(x, s1) := random s in
    match pick population weights (x * total) with
    | Some p => Ok (p, s1)
    | None => Raise IndexError
    end
  else Raise ValueError.

Definition choice (s : Z) (population : list string) : outcome (string * Z) :=
  let '(j, s1) := randbelow s (length population) in
  match population !! j with
  | Some p => Ok (p, s1)
  | None => Raise IndexError
  end.

(** The graph on [0 .. n-1] without edges. *)
Definition empty_graph (n : nat) : Graph :=
  {| g_nodes := seq 0 n;
     g_attr := list_to_map ((λ i, (i, ∅)) <$> seq 0 n);
     g_adj := list_to_map ((λ i, (i, ∅)) <$> seq 0 n) |}.

(** Every source in turn is linked to [m] distinct earlier nodes. *)
Fixpoint attach (m : nat) (sources : list node) (G : Graph) (s : Z) : Graph * Z :=
  match sources with
  | [] => (G, s)
  | source :: sources' =>
      let '(targets, s1) := draw m (seq 0 source) s in
      attach m sources' (foldl (λ G t, add_edge source t ∅ G) G targets) s1
  end.

(** A star on [0 .. m], then [m] links for each of the other nodes. *)
Definition barabasi_albert_graph (n m : Z) (s : Z) : outcome (Graph * Z) :=
  if bool_decide (m < 1 ∨ n ≤ m) then Raise NetworkXError
  else
    let star := foldl (λ G t, add_edge 0%nat t ∅ G) (empty_graph (Z.to_nat n))
                  (seq 1 (Z.to_nat m)) in
    Ok (attach (Z.to_nat m) (seq (S (Z.to_nat m)) (Z.to_nat n - S (Z.to_nat m))) star s).

End Lcg.

(** ** Checking small graphs by running *)

#[global] Instance Q_eq_dec : EqDecision Q.
Proof. solve_decision. Defined.

#[global] Instance value_eq_dec : EqDecision value.
Proof. solve_decision. Defined.

(** A check of [graph_wf] that can be run. *)
Definition graph_wfb (G : Graph) : bool :=
  bool_decide (NoDup (g_nodes G))
  && bool_decide (dom (g_attr G) = list_to_set (g_nodes G))
  && bool_decide (map_Forall (λ u nbrs,
       u ∈ g_nodes G ∧
       map_Forall (λ v d, v ∈ g_nodes G ∧ neighbors G v !! u = Some d) nbrs)
     (g_adj G)).

(** A check of [loop_free] that can be run. *)
Definition loop_freeb (G : Graph) : bool :=
  bool_decide (map_Forall (λ u nbrs, nbrs !! u = None) (g_adj G)).

(** ** Two small labelled graphs *)

(** A Fraud node and an Accomplice node that are already linked. *)
Definition collusion_demo : Graph :=
  {| g_nodes := [0; 1]%nat;
     g_attr := {[ 0%nat := {[ "true_state" := VStr "Fraud" ]};
                  1%nat := {[ "true_state" := VStr "Accomplice" ]} ]};
     g_adj := {[ 0%nat := {[ 1%nat := ∅ ]}; 1%nat := {[ 0%nat := ∅ ]} ]} |}.

(** A Fraud node, two Accomplice nodes it is not linked to, and an Honest
    neighbour. *)
Definition collusion_open : Graph :=
  {| g_nodes := [0; 1; 2; 3]%nat;
     g_attr := {[ 0%nat := {[ "true_state" := VStr "Fraud" ]};
                  1%nat := {[ "true_state" := VStr "Accomplice" ]};
                  2%nat := {[ "true_state" := VStr "Accomplice" ]};
                  3%nat := {[ "true_state" := VStr "Honest" ]} ]};
     g_adj := {[ 0%nat := {[ 3%nat := ∅ ]}; 1%nat := ∅; 2%nat := ∅;
                 3%nat := {[ 0%nat := ∅ ]} ]} |}.

(** Closes a goal whose hypothesis [E] says that a closed call which
    returns did not. *)
Ltac by_running E :=
  exfalso; apply (f_equal returned) in E; vm_compute in E; discriminate E.

(** * Lemmas *)

(** ** Outcomes *)

Lemma bind_Ok {A B} (m : outcome A) (f : A → outcome B) (b : B) :
  m ≫= f = Ok b → ∃ a, m = Ok a ∧ f a = Ok b.
Proof. destruct m as [a| |]; simpl; [eauto | done | done]. Qed.

(** ** The graph operations *)

Lemma add_node_present n G : n ∈ g_nodes G → add_node n G = G.
Proof. intros Hn. unfold add_node. by rewrite bool_decide_eq_true_2. Qed.

Section add_edge.
Context (G : Graph) (u v : node) (attr : gmap string value).
Context (Hu : u ∈ g_nodes G) (Hv : v ∈ g_nodes G).

Lemma add_edge_nodes : g_nodes (add_edge u v attr G) = g_nodes G.
Proof. unfold add_edge. by rewrite (add_node_present u G), (add_node_present v G). Qed.

Lemma add_edge_attr : g_attr (add_edge u v attr G) = g_attr G.
Proof. unfold add_edge. by rewrite (add_node_present u G), (add_node_present v G). Qed.

Lemma neighbors_add_edge x y :
  neighbors (add_edge u v attr G) x !! y =
    if bool_decide ((x = u ∧ y = v) ∨ (x = v ∧ y = u))
    then Some (attr ∪ default ∅ (neighbors G u !! v))
    else neighbors G x !! y.
Proof.
  unfold add_edge. rewrite (add_node_present u G), (add_node_present v G) by done.
  unfold neighbors; simpl.
  case_bool_decide as Hc.
  - destruct Hc as [[-> ->]|[-> ->]].
    + destruct (decide (u = v)) as [->|Huv].
      * rewrite lookup_insert_eq. simpl. by rewrite lookup_insert_eq.
      * rewrite lookup_insert_ne, lookup_insert_eq by done. simpl.
        by rewrite lookup_insert_eq.
    + rewrite lookup_insert_eq. simpl. by rewrite lookup_insert_eq.
  - destruct (decide (x = v)) as [->|Hxv].
    + assert (y ≠ u) by naive_solver.
      rewrite lookup_insert_eq. simpl. rewrite lookup_insert_ne by done.
      destruct (decide (u = v)) as [->|Huv].
      * rewrite lookup_insert_eq. simpl. by rewrite lookup_insert_ne by done.
      * by rewrite lookup_insert_ne by done.
    + rewrite lookup_insert_ne by done.
      destruct (decide (x = u)) as [->|Hxu].
      * assert (y ≠ v) by naive_solver.
        rewrite lookup_insert_eq. simpl. by rewrite lookup_insert_ne by done.
      * by rewrite lookup_insert_ne by done.
Qed.

Lemma has_edge_add_edge x y :
  has_edge (add_edge u v attr G) x y =
    bool_decide ((x = u ∧ y = v) ∨ (x = v ∧ y = u)) || has_edge G x y.
Proof.
  unfold has_edge. rewrite neighbors_add_edge.
  by destruct (bool_decide ((x = u ∧ y = v) ∨ (x = v ∧ y = u))).
Qed.

Lemma add_edge_wf : graph_wf G → graph_wf (add_edge u v attr G).
Proof.
  intros [Hnd Hat Hcl Hsy]. split.
  - by rewrite add_edge_nodes.
  - intros n. by rewrite add_edge_nodes, add_edge_attr.
  - intros x y. rewrite add_edge_nodes, neighbors_add_edge.
    case_bool_decide; [naive_solver | apply Hcl].
  - intros x y. rewrite !neighbors_add_edge.
    repeat case_bool_decide; try done; naive_solver.
Qed.

Lemma add_edge_loop_free : u ≠ v → loop_free G → loop_free (add_edge u v attr G).
Proof.
  intros Huv Hlf n. rewrite has_edge_add_edge, Hlf.
  rewrite bool_decide_eq_false_2; [done | naive_solver].
Qed.

End add_edge.

(** ** Graphs that differ by added edges only *)

Lemma extends_refl G : extends G G.
Proof. by split. Qed.

Lemma extends_trans G1 G2 G3 : extends G1 G2 → extends G2 G3 → extends G1 G3.
Proof.
  intros [Hn1 Ha1 He1] [Hn2 Ha2 He2]. split; [congruence | congruence | auto].
Qed.

Lemma add_edge_extends G u v attr :
  u ∈ g_nodes G → v ∈ g_nodes G → extends G (add_edge u v attr G).
Proof.
  intros Hu Hv. split.
  - by apply add_edge_nodes.
  - by apply add_edge_attr.
  - intros x y Hxy. rewrite neighbors_add_edge by done. by case_bool_decide.
Qed.

Lemma extends_node_get G G' n key : extends G G' → node_get G' n key = node_get G n key.
Proof. intros [_ Ha _]. unfold node_get. by rewrite Ha. Qed.

Lemma sum_list_with_mono {A} (f g : A → nat) (l : list A) :
  (∀ x, x ∈ l → (f x ≤ g x)%nat) → (sum_list_with f l ≤ sum_list_with g l)%nat.
Proof.
  induction l as [|a l IH]; intros Hfg; simpl; [lia|].
  assert (f a ≤ g a)%nat by (apply Hfg; left).
  assert (sum_list_with f l ≤ sum_list_with g l)%nat by (apply IH; intros; apply Hfg; by right).
  lia.
Qed.

Lemma extends_degree G G' n : extends G G' → (degree G n ≤ degree G' n)%nat.
Proof.
  intros [_ _ He]. unfold degree, self_loop.
  assert (size (neighbors G n) ≤ size (neighbors G' n))%nat as Hsz.
  { rewrite <- !(size_dom (D := gset node)). apply subseteq_size.
    intros y. rewrite !elem_of_dom. apply He. }
  repeat case_bool_decide; try lia.
  exfalso. auto.
Qed.

Lemma extends_number_of_edges G G' :
  extends G G' → (number_of_edges G ≤ number_of_edges G')%nat.
Proof.
  intros He. unfold number_of_edges. rewrite (ext_nodes _ _ He).
  apply Nat.Div0.div_le_mono, sum_list_with_mono.
  intros n _. by apply extends_degree.
Qed.

(** ** The edge view lists every unordered pair at most once *)

Lemma edges_from_elem G seen ns u v :
  (u, v) ∈ edges_from G seen ns →
  u ∈ ns ∧ (v ∉ seen) ∧ is_Some (neighbors G u !! v).
Proof.
  revert seen. induction ns as [|n ns IH]; intros seen; simpl.
  - by intros ?%elem_of_nil.
  - rewrite elem_of_app. intros [Hin|Hin].
    + apply list_elem_of_fmap in Hin as (nbr & [= -> ->] & Hnbr).
      apply list_elem_of_filter in Hnbr as [Hns Hnbr].
      apply list_elem_of_fmap in Hnbr as ([k a] & -> & Hka).
      apply elem_of_map_to_list in Hka. simpl in *.
      split_and!; [left | done | eauto].
    + apply IH in Hin as (Hu & Hv & He).
      split_and!; [by right | set_solver | done].
Qed.

Lemma edges_from_NoDup G seen ns : NoDup ns → NoDup (edges_from G seen ns).
Proof.
  revert seen. induction ns as [|n ns IH]; intros seen Hnd; simpl.
  - constructor.
  - apply NoDup_cons in Hnd as [Hn Hnd]. apply NoDup_app. split_and!.
    + apply NoDup_fmap_2; [by intros ?? [= ->] |].
      apply NoDup_filter, NoDup_fst_map_to_list.
    + intros [u v] Hin Hin'.
      apply list_elem_of_fmap in Hin as (nbr & [= -> ->] & _).
      by destruct (edges_from_elem _ _ _ _ _ Hin') as [? _].
    + by apply IH.
Qed.

Lemma edges_from_orient G seen ns u v :
  NoDup ns → (u, v) ∈ edges_from G seen ns → (v, u) ∈ edges_from G seen ns → u = v.
Proof.
  revert seen. induction ns as [|n ns IH]; intros seen Hnd; simpl.
  - by intros ?%elem_of_nil.
  - apply NoDup_cons in Hnd as [Hn Hnd]. rewrite !elem_of_app.
    intros [H1|H1] [H2|H2].
    + apply list_elem_of_fmap in H1 as (? & [= -> ->] & _).
      by apply list_elem_of_fmap in H2 as (? & [= -> ->] & _).
    + apply list_elem_of_fmap in H1 as (? & [= -> ->] & _).
      apply edges_from_elem in H2 as (_ & Hseen & _). set_solver.
    + apply list_elem_of_fmap in H2 as (? & [= -> ->] & _).
      apply edges_from_elem in H1 as (_ & Hseen & _). set_solver.
    + by eapply IH.
Qed.

Lemma edges_no_duplicate G : NoDup (g_nodes G) → no_duplicate_edges G.
Proof.
  intros Hnd. split.
  - by apply edges_from_NoDup.
  - intros u v. by apply edges_from_orient.
Qed.

(** ** The edge count is the length of the edge view *)

Section edge_count.
Local Open Scope nat_scope.

Lemma sum_list_with_plus {A} (f g : A → nat) (l : list A) :
  sum_list_with (λ x, f x + g x) l = sum_list_with f l + sum_list_with g l.
Proof. induction l as [|a l IH]; simpl; lia. Qed.

Lemma sum_list_with_ext {A} (f g : A → nat) (l : list A) :
  (∀ x, x ∈ l → f x = g x) → sum_list_with f l = sum_list_with g l.
Proof.
  induction l as [|a l IH]; intros Hfg; simpl; [done|].
  rewrite (Hfg a) by left. rewrite IH; [done|]. intros; apply Hfg; by right.
Qed.

Lemma sum_list_with_indicator {A} (P : A → Prop) `{∀ x, Decision (P x)} (l : list A) :
  sum_list_with (λ x, if bool_decide (P x) then 1 else 0) l = length (filter P l).
Proof.
  induction l as [|a l IH]; simpl; [done|].
  rewrite filter_cons. case_bool_decide; case_decide; try done; simpl; lia.
Qed.

Lemma filter_all {A} (P : A → Prop) `{∀ x, Decision (P x)} (l : list A) :
  (∀ x, x ∈ l → P x) → filter P l = l.
Proof.
  induction l as [|a l IH]; intros HP; [done|].
  rewrite filter_cons_True by (apply HP; left).
  rewrite IH; [done|]. intros; apply HP; by right.
Qed.

Lemma filter_seen_length (S : gset node) (n : node) (l : list node) :
  NoDup l → (n ∉ S) →
  length (filter (λ x, x ∉ S) l)
  = length (filter (λ x, x ∉ {[n]} ∪ S) l) + (if bool_decide (n ∈ l) then 1 else 0).
Proof.
  intros Hnd Hn. induction l as [|a l IH]; simpl; [done|].
  apply NoDup_cons in Hnd as [Ha Hnd]. specialize (IH Hnd).
  rewrite !filter_cons.
  destruct (decide (a = n)) as [->|Hne].
  - rewrite (bool_decide_eq_true_2 (n ∈ n :: l)) by left.
    rewrite bool_decide_eq_false_2 in IH by done.
    rewrite decide_True by done. rewrite decide_False by set_solver. simpl. lia.
  - assert (bool_decide (n ∈ a :: l) = bool_decide (n ∈ l)) as ->.
    { apply bool_decide_ext. set_solver. }
    destruct (decide (a ∉ S)).
    + rewrite decide_True by set_solver. simpl. lia.
    + rewrite decide_False by set_solver. lia.
Qed.

Section handshake.
Context (G : Graph) (Hwf : graph_wf G).

Lemma fresh_neighbors_elem S n v :
  v ∈ fresh_neighbors G S n ↔ (v ∉ S) ∧ is_Some (neighbors G n !! v).
Proof.
  unfold fresh_neighbors. rewrite list_elem_of_filter, list_elem_of_fmap. split.
  - intros (Hv & [k d] & -> & Hkd%elem_of_map_to_list). eauto.
  - intros (Hv & d & Hd). split; [done|]. exists (v, d). split; [done|].
    by apply elem_of_map_to_list.
Qed.

Lemma fresh_neighbors_NoDup S n : NoDup (fresh_neighbors G S n).
Proof. apply NoDup_filter, NoDup_fst_map_to_list. Qed.

Lemma fresh_neighbors_empty n : length (fresh_neighbors G ∅ n) = size (neighbors G n).
Proof.
  unfold fresh_neighbors. rewrite filter_all by set_solver.
  by rewrite length_fmap, length_map_to_list.
Qed.

Lemma edges_from_handshake S ns :
  NoDup ns →
  (∀ n, n ∈ ns → (n ∉ S)) →
  (∀ u v, u ∈ ns → is_Some (neighbors G u !! v) → v ∈ S ∨ v ∈ ns) →
  sum_list_with (λ n, length (fresh_neighbors G S n) + self_loop G n) ns
  = 2 * length (edges_from G S ns).
Proof.
  revert S. induction ns as [|n ns IH]; intros S Hnd Hfresh Hclosed; [done|].
  apply NoDup_cons in Hnd as [Hn Hnd].
  cbn [edges_from sum_list_with]. rewrite length_app, length_fmap.
  fold (fresh_neighbors G S n).
  assert (n ∉ S) as HnS by (apply Hfresh; left).
  assert (sum_list_with
            (λ x, length (fresh_neighbors G ({[n]} ∪ S) x) + self_loop G x) ns
          = 2 * length (edges_from G ({[n]} ∪ S) ns)) as IH'.
  { apply IH; [done | |].
    - intros x Hx. assert (x ∉ S) by (apply Hfresh; by right). set_solver.
    - intros u v Hu Huv.
      destruct (Hclosed u v) as [?|[->|?]%elem_of_cons];
        [by right | done | set_solver | set_solver | by right]. }
  clear IH.
  rewrite (sum_list_with_ext _
    (λ x, (length (fresh_neighbors G ({[n]} ∪ S) x) + self_loop G x)
          + (if bool_decide (is_Some (neighbors G n !! x)) then 1 else 0)) ns).
  2:{ intros x Hx. unfold fresh_neighbors at 1.
      rewrite (filter_seen_length S n) by (done || apply NoDup_fst_map_to_list).
      fold (fresh_neighbors G ({[n]} ∪ S) x).
      assert (bool_decide (n ∈ (map_to_list (neighbors G x)).*1)
              = bool_decide (is_Some (neighbors G n !! x))) as ->; [|lia].
      apply bool_decide_ext. rewrite (wf_sym _ Hwf n x), list_elem_of_fmap. split.
      - intros ([k d] & -> & Hkd%elem_of_map_to_list). eauto.
      - intros [d Hd]. exists (n, d). split; [done|]. by apply elem_of_map_to_list. }
  rewrite sum_list_with_plus, sum_list_with_indicator.
  assert (length (fresh_neighbors G S n)
          = self_loop G n + length (filter (λ x, is_Some (neighbors G n !! x)) ns)) as Hcount; [|lia].
  unfold self_loop.
  replace ((if bool_decide (is_Some (neighbors G n !! n)) then 1 else 0)
           + length (filter (λ x, is_Some (neighbors G n !! x)) ns))
    with (length (filter (λ x, is_Some (neighbors G n !! x)) (n :: ns))).
  2:{ rewrite filter_cons. case_bool_decide; case_decide; done. }
  apply Permutation_length, NoDup_Permutation.
  - apply fresh_neighbors_NoDup.
  - apply NoDup_filter, NoDup_cons; done.
  - intros v. rewrite fresh_neighbors_elem, list_elem_of_filter. split.
    + intros [Hv Hs]. split; [done|]. destruct (Hclosed n v) as [?|?]; [left | done | done | done].
    + intros [Hs Hv]. split; [|done]. by apply Hfresh.
Qed.

Lemma degree_sum_edges : sum_list_with (degree G) (g_nodes G) = 2 * length (edges G).
Proof.
  unfold edges. rewrite <- edges_from_handshake.
  - apply sum_list_with_ext. intros n _. unfold degree, self_loop.
    by rewrite fresh_neighbors_empty.
  - apply Hwf.
  - set_solver.
  - intros u v _ Huv. right. by apply (wf_closed _ Hwf u v).
Qed.

Lemma number_of_edges_length : number_of_edges G = length (edges G).
Proof.
  unfold number_of_edges. rewrite degree_sum_edges.
  rewrite (Nat.mul_comm 2). apply Nat.div_mul. done.
Qed.

End handshake.

End edge_count.

(** ** A simple graph on [n] nodes has at most [n (n - 1) / 2] edges *)

Lemma sum_list_with_bound {A} (f : A → nat) (c : nat) (l : list A) :
  (∀ x, x ∈ l → (f x ≤ c)%nat) → (sum_list_with f l ≤ length l * c)%nat.
Proof.
  induction l as [|a l IH]; intros Hf; simpl; [lia|].
  assert (f a ≤ c)%nat by (apply Hf; left).
  assert (sum_list_with f l ≤ length l * c)%nat by (apply IH; intros; apply Hf; by right).
  lia.
Qed.

Lemma degree_bound G n :
  graph_wf G → loop_free G → n ∈ g_nodes G →
  (degree G n ≤ length (g_nodes G) - 1)%nat.
Proof.
  intros Hwf Hlf Hn. unfold degree, self_loop.
  specialize (Hlf n). unfold has_edge in Hlf. rewrite Hlf.
  apply bool_decide_eq_false in Hlf.
  assert (dom (neighbors G n) ⊆ list_to_set (g_nodes G) ∖ ({[n]} : gset node)) as Hsub.
  { intros y. rewrite elem_of_dom, elem_of_difference, elem_of_list_to_set.
    intros Hy. split.
    - by apply (wf_closed _ Hwf n y).
    - intros ->%elem_of_singleton. done. }
  apply subseteq_size in Hsub.
  rewrite size_dom, size_difference, size_singleton in Hsub.
  - rewrite size_list_to_set in Hsub by apply Hwf. lia.
  - intros y ->%elem_of_singleton. by apply elem_of_list_to_set.
Qed.

Lemma number_of_edges_bound G :
  graph_wf G → loop_free G →
  (number_of_edges G ≤ (length (g_nodes G) * (length (g_nodes G) - 1)) `div` 2)%nat.
Proof.
  intros Hwf Hlf. unfold number_of_edges.
  apply Nat.Div0.div_le_mono, sum_list_with_bound.
  intros n Hn. by apply degree_bound.
Qed.

(** ** Sampling *)

Lemma submseteq_NoDup {A} (l k : list A) : l ⊆+ k → NoDup k → NoDup l.
Proof.
  intros (k' & Hk)%submseteq_Permutation Hnd. rewrite Hk in Hnd.
  by apply NoDup_app in Hnd as [? _].
Qed.

Section sampling.
Context {R : Type} `{RandomSource R}.

Lemma sample_Ok {A} (r r' : R) (population picked : list A) (k : Z) :
  sample r population k = Ok (picked, r') →
  picked ⊆+ population ∧ Z.of_nat (length picked) = k.
Proof. intros Hs. pose proof (sample_spec r population k) as Hp. by rewrite Hs in Hp. Qed.

Lemma sample_defined {A} (r : R) (population : list A) (k : Z) :
  0 ≤ k ≤ Z.of_nat (length population) →
  ∃ picked r', sample r population k = Ok (picked, r').
Proof.
  intros Hk. pose proof (sample_spec r population k) as Hp.
  destruct (sample r population k) as [[picked r']| |]; [eauto | lia | done].
Qed.

Lemma sample_two (r r' : R) (nodes_list picked : list node) :
  NoDup nodes_list →
  sample r nodes_list 2 = Ok (picked, r') →
  ∃ node1 node2, picked = [node1; node2] ∧
    node1 ∈ nodes_list ∧ node2 ∈ nodes_list ∧ node1 ≠ node2.
Proof.
  intros Hnd [Hsub Hlen]%sample_Ok.
  destruct picked as [|a [|b [|c picked]]]; simpl in Hlen; try lia.
  exists a, b. split; [done|].
  pose proof (submseteq_NoDup _ _ Hsub Hnd) as Hnd'.
  split_and!.
  - eapply elem_of_submseteq; [|done]. left.
  - eapply elem_of_submseteq; [|done]. right; left.
  - apply NoDup_cons in Hnd' as [Hab _]. intros ->. apply Hab. left.
Qed.

End sampling.

(** ** The top-up loop *)

Lemma simple_on_add_edge nodes_list G u v attr :
  simple_on nodes_list G → u ∈ nodes_list → v ∈ nodes_list → u ≠ v →
  simple_on nodes_list (add_edge u v attr G).
Proof.
  intros [Hn Hwf Hlf] Hu Hv Huv. rewrite <- Hn in Hu, Hv. split.
  - by rewrite add_edge_nodes.
  - by apply add_edge_wf.
  - by apply add_edge_loop_free.
Qed.

Section top_up.
Context {R : Type} `{RandomSource R}.

Lemma top_up_Ok fuel target_edges nodes_list G existing_edges r G' existing_edges' r' :
  simple_on nodes_list G →
  top_up fuel target_edges nodes_list G existing_edges r = Ok (G', existing_edges', r') →
  simple_on nodes_list G' ∧ extends G G' ∧ target_edges ≤ Z.of_nat (number_of_edges G').
Proof.
  revert G existing_edges r.
  induction fuel as [|fuel IH]; intros G existing_edges r Hso; simpl.
  - case_bool_decide as Hlt; [done|]. intros [= <- <- <-].
    split_and!; [done | apply extends_refl | lia].
  - case_bool_decide as Hlt.
    + intros ([picked r1] & Hs & Hk)%bind_Ok.
      apply sample_two in Hs as (node1 & node2 & -> & H1 & H2 & Hne);
        [| rewrite <- (so_nodes _ _ Hso); apply Hso].
      destruct (bool_decide ((node1, node2) ∉ existing_edges)
                && bool_decide ((node2, node1) ∉ existing_edges)).
      * destruct (uniform r1 (1 # 10) 1) as [w r2].
        apply IH in Hk as (Hso' & Hext & Hge); [| by apply simple_on_add_edge].
        split_and!; [done | | done].
        eapply extends_trans; [|done].
        apply add_edge_extends; by rewrite (so_nodes _ _ Hso).
      * by apply IH in Hk.
    + intros [= <- <- <-]. split_and!; [done | apply extends_refl | lia].
Qed.

(** When the target is beyond what the node set can hold, no amount of
    fuel lets the loop finish. *)
Lemma top_up_exhausted fuel target_edges nodes_list G existing_edges r :
  simple_on nodes_list G →
  (2 ≤ length nodes_list)%nat →
  Z.of_nat ((length nodes_list * (length nodes_list - 1)) `div` 2) < target_edges →
  top_up fuel target_edges nodes_list G existing_edges r = OutOfFuel.
Proof.
  intros Hso Hlen Hbig. revert G existing_edges r Hso.
  induction fuel as [|fuel IH]; intros G existing_edges r Hso; simpl.
  - rewrite bool_decide_eq_true_2; [done|].
    pose proof (number_of_edges_bound G (so_wf _ _ Hso) (so_loop_free _ _ Hso)) as Hb.
    rewrite (so_nodes _ _ Hso) in Hb. lia.
  - rewrite bool_decide_eq_true_2.
    2:{ pose proof (number_of_edges_bound G (so_wf _ _ Hso) (so_loop_free _ _ Hso)) as Hb.
        rewrite (so_nodes _ _ Hso) in Hb. lia. }
    destruct (sample_defined r nodes_list 2) as (picked & r1 & Hs); [lia|].
    rewrite Hs. simpl.
    apply sample_two in Hs as (node1 & node2 & -> & H1 & H2 & Hne);
      [| rewrite <- (so_nodes _ _ Hso); apply Hso].
    destruct (bool_decide ((node1, node2) ∉ existing_edges)
              && bool_decide ((node2, node1) ∉ existing_edges)).
    + destruct (uniform r1 (1 # 10) 1) as [w r2].
      apply IH. by apply simple_on_add_edge.
    + by apply IH.
Qed.

End top_up.

(** ** Steps 1 and 2 together *)

Lemma floordiv_Ok a b q : floordiv a b = Ok q → b ≠ 0 ∧ q = a `div` b.
Proof. unfold floordiv. case_bool_decide; [done|]. by intros [= <-]. Qed.

Section topology.
Context {R : Type} `{RandomSource R} `{BarabasiAlbert R}.

Lemma barabasi_albert_Ok n m (r r' : R) G :
  barabasi_albert_graph n m r = Ok (G, r') →
  1 ≤ m < n ∧ simple_on (seq 0 (Z.to_nat n)) G.
Proof.
  intros Hba. pose proof (barabasi_albert_spec n m r) as Hs. rewrite Hba in Hs.
  destruct Hs as (Hm & Hn & Hwf & Hlf). by split.
Qed.

Lemma generate_topology_Ok fuel num_nodes target_edges (r r' : R) G :
  generate_topology fuel num_nodes target_edges r = Ok (G, r') →
  2 ≤ num_nodes ∧
  simple_on (seq 0 (Z.to_nat num_nodes)) G ∧
  target_edges ≤ Z.of_nat (number_of_edges G).
Proof.
  unfold generate_topology.
  intros (q & [Hn0 ->]%floordiv_Ok & Hk)%bind_Ok.
  apply bind_Ok in Hk as ([G0 r1] & [Hm Hso]%barabasi_albert_Ok & Hk).
  apply bind_Ok in Hk as ([[G1 ex] r2] & Ht & Hk).
  injection Hk as <- <-. rewrite (so_nodes _ _ Hso) in Ht.
  apply top_up_Ok in Ht as (Hso' & _ & Hge); [|done].
  split_and!; [lia | done | done].
Qed.

End topology.

(** ** Step 3: roles and beliefs *)

Lemma getitem_Ok {V} (d : gmap string V) key v : getitem d key = Ok v → d !! key = Some v.
Proof. unfold getitem. destruct (d !! key); [by intros [= ->] | done]. Qed.

Lemma node_set_Ok G n key v G' :
  node_set G n key v = Ok G' →
  ∃ d, g_attr G !! n = Some d ∧
       G' = {| g_nodes := g_nodes G;
               g_attr := <[n := <[key := v]> d]> (g_attr G);
               g_adj := g_adj G |}.
Proof.
  unfold node_set. destruct (g_attr G !! n) as [d|]; [|done].
  intros [= <-]. eauto.
Qed.

Lemma relabels_refl G : relabels G G.
Proof. by split. Qed.

Lemma relabels_trans G1 G2 G3 : relabels G1 G2 → relabels G2 G3 → relabels G1 G3.
Proof.
  intros [Hn1 Ha1 Hd1] [Hn2 Ha2 Hd2]. split; [congruence | congruence |].
  intros m. by rewrite Hd2.
Qed.

Lemma relabels_neighbors G G' u : relabels G G' → neighbors G' u = neighbors G u.
Proof. intros [_ Ha _]. unfold neighbors. by rewrite Ha. Qed.

Lemma relabels_number_of_edges G G' :
  relabels G G' → number_of_edges G' = number_of_edges G.
Proof.
  intros Hrl. unfold number_of_edges, degree, self_loop. rewrite (rl_nodes _ _ Hrl).
  f_equal. induction (g_nodes G) as [|n ns IH]; simpl; [done|].
  by rewrite IH, (relabels_neighbors G G').
Qed.

Lemma relabels_simple_on nodes_list G G' :
  relabels G G' → simple_on nodes_list G → simple_on nodes_list G'.
Proof.
  intros Hrl [Hn [Hnd Hat Hcl Hsy] Hlf]. split; [| split |].
  - by rewrite (rl_nodes _ _ Hrl).
  - by rewrite (rl_nodes _ _ Hrl).
  - intros m. by rewrite (rl_nodes _ _ Hrl), (rl_dom _ _ Hrl).
  - intros u v. rewrite (rl_nodes _ _ Hrl), (relabels_neighbors G G') by done. apply Hcl.
  - intros u v. rewrite !(relabels_neighbors G G') by done. apply Hsy.
  - intros m. unfold has_edge. rewrite (relabels_neighbors G G') by done. apply Hlf.
Qed.

Section roles.
Context {R : Type} `{RandomSource R}.

Lemma assign_node_Ok initial_belief state_distribution n G counts (r : R) G' counts' r' :
  assign_node initial_belief state_distribution n (G, counts, r) = Ok (G', counts', r') →
  relabels G G' ∧
  node_labelled initial_belief G' n ∧
  (∀ m, m ≠ n → g_attr G' !! m = g_attr G !! m).
Proof.
  unfold assign_node.
  intros (wf & Hwf%getitem_Ok & Hk)%bind_Ok.
  apply bind_Ok in Hk as (wa & Hwa%getitem_Ok & Hk).
  apply bind_Ok in Hk as (wh & Hwh%getitem_Ok & Hk).
  apply bind_Ok in Hk as ([ts r1] & Hts%choices_elem & Hk).
  apply bind_Ok in Hk as (G1 & (d1 & Hd1 & ->)%node_set_Ok & Hk).
  apply bind_Ok in Hk as (bf & Hbf%getitem_Ok & Hk).
  apply bind_Ok in Hk as (G2 & (d2 & Hd2 & ->)%node_set_Ok & Hk).
  apply bind_Ok in Hk as (ba & Hba%getitem_Ok & Hk).
  apply bind_Ok in Hk as (G3 & (d3 & Hd3 & ->)%node_set_Ok & Hk).
  apply bind_Ok in Hk as (bh & Hbh%getitem_Ok & Hk).
  apply bind_Ok in Hk as (G4 & (d4 & Hd4 & ->)%node_set_Ok & Hk).
  apply bind_Ok in Hk as ([st r2] & Hst%choice_elem & Hk).
  apply bind_Ok in Hk as (G5 & (d5 & Hd5 & ->)%node_set_Ok & Hk).
  apply bind_Ok in Hk as (c & Hc & Hk).
  injection Hk as <- <- <-. simpl in *.
  rewrite lookup_insert_eq in Hd2, Hd3, Hd4, Hd5.
  injection Hd2 as <-. injection Hd3 as <-. injection Hd4 as <-. injection Hd5 as <-.
  split_and!.
  - split; [done | done |]. intros m. simpl.
    destruct (decide (m = n)) as [->|Hm].
    + rewrite lookup_insert_eq, Hd1. split; eauto.
    + by rewrite !lookup_insert_ne.
  - eexists. split; [apply lookup_insert_eq|].
    split; simpl.
    + exists ts. by simplify_map_eq.
    + exists st. by simplify_map_eq.
    + exists bf. by simplify_map_eq.
    + exists ba. by simplify_map_eq.
    + exists bh. by simplify_map_eq.
  - intros m Hm. by rewrite !lookup_insert_ne.
Qed.

Lemma assign_loop_Ok initial_belief state_distribution ns G counts (r : R) G' counts' r' :
  for_each ns (assign_node initial_belief state_distribution) (G, counts, r)
    = Ok (G', counts', r') →
  relabels G G' ∧
  (∀ n, n ∈ ns → node_labelled initial_belief G' n) ∧
  (∀ n, node_labelled initial_belief G n → node_labelled initial_belief G' n).
Proof.
  revert G counts r. induction ns as [|n ns IH]; intros G counts r; simpl.
  - intros [= <- <- <-]. split_and!; [apply relabels_refl | | done].
    by intros n ?%elem_of_nil.
  - intros ([[G1 counts1] r1] & (Hr1 & Hl1 & Ho1)%assign_node_Ok & Hk)%bind_Ok.
    apply IH in Hk as (Hr2 & Hl2 & Hp2).
    assert (∀ m, node_labelled initial_belief G m → node_labelled initial_belief G1 m) as Hp1.
    { intros m Hm. destruct (decide (m = n)) as [->|Hne]; [done|].
      unfold node_labelled. by rewrite Ho1. }
    split_and!; [by eapply relabels_trans | | auto].
    intros m [->|Hm]%elem_of_cons; auto.
Qed.

Lemma assign_roles_Ok initial_belief state_distribution G (r : R) G' counts' r' :
  assign_roles initial_belief state_distribution G r = Ok (G', counts', r') →
  relabels G G' ∧
  (∀ n, n ∈ g_nodes G' → node_labelled initial_belief G' n).
Proof.
  unfold assign_roles. intros (Hr & Hl & _)%assign_loop_Ok.
  split; [done|]. intros n. rewrite (rl_nodes _ _ Hr). apply Hl.
Qed.

End roles.

(** ** The augmentation pass *)

Lemma has_edge_is_Some G u v : has_edge G u v = true ↔ is_Some (neighbors G u !! v).
Proof. unfold has_edge. apply bool_decide_eq_true. Qed.

Lemma extends_has_edge G G' u v : extends G G' → has_edge G u v = true → has_edge G' u v = true.
Proof. intros He. rewrite !has_edge_is_Some. apply He. Qed.

Lemma extends_is_accomplice G G' n : extends G G' → is_accomplice G' n ↔ is_accomplice G n.
Proof. intros He. unfold is_accomplice. by rewrite (extends_node_get G G'). Qed.

Lemma extends_is_fraud G G' n : extends G G' → is_fraud G' n ↔ is_fraud G n.
Proof. intros He. unfold is_fraud. by rewrite (extends_node_get G G'). Qed.

Lemma extends_accomplices G G' :
  extends G G' →
  filter (is_accomplice G') (g_nodes G') = filter (is_accomplice G) (g_nodes G).
Proof.
  intros He. rewrite (ext_nodes _ _ He).
  apply list_filter_iff. intros n. by apply extends_is_accomplice.
Qed.

(** A node cannot carry both labels. *)
Lemma fraud_not_accomplice G n : is_fraud G n → is_accomplice G n → False.
Proof.
  unfold is_fraud, is_accomplice, is_str.
  destruct (node_get G n "true_state") as [[s|q]|]; try done.
  intros ->%bool_decide_eq_true. by intros ?%bool_decide_eq_true.
Qed.

Section link.
Context (G : Graph) (n : node) (Hn : n ∈ g_nodes G).

Lemma link_extends a : a ∈ g_nodes G → extends G (link n G a).
Proof.
  intros Ha. unfold link. destruct (has_edge G n a).
  - apply extends_refl.
  - by apply add_edge_extends.
Qed.

Lemma link_has_edge a : a ∈ g_nodes G → has_edge (link n G a) n a = true.
Proof.
  intros Ha. unfold link. destruct (has_edge G n a) eqn:He; [done|].
  rewrite has_edge_add_edge by done.
  rewrite bool_decide_eq_true_2; [done | by left].
Qed.

Lemma link_wf a : a ∈ g_nodes G → graph_wf G → graph_wf (link n G a).
Proof.
  intros Ha Hwf. unfold link. destruct (has_edge G n a); [done|].
  by apply add_edge_wf.
Qed.

Lemma link_loop_free a : a ∈ g_nodes G → n ≠ a → loop_free G → loop_free (link n G a).
Proof.
  intros Ha Hna Hlf. unfold link. destruct (has_edge G n a); [done|].
  by apply add_edge_loop_free.
Qed.

End link.

Lemma link_all G n picked :
  n ∈ g_nodes G → (∀ a, a ∈ picked → a ∈ g_nodes G) →
  let G' := foldl (link n) G picked in
  extends G G' ∧
  (∀ a, a ∈ picked → has_edge G' n a = true) ∧
  (graph_wf G → graph_wf G') ∧
  (n ∉ picked → loop_free G → loop_free G').
Proof.
  revert G. induction picked as [|a picked IH]; intros G Hn Hp; simpl.
  - split_and!; [apply extends_refl | by intros a ?%elem_of_nil | done | done].
  - assert (a ∈ g_nodes G) as Ha by (apply Hp; left).
    pose proof (link_extends G n Hn a Ha) as He.
    destruct (IH (link n G a)) as (He' & Hh' & Hwf' & Hlf').
    { by rewrite (ext_nodes _ _ He). }
    { intros b Hb. rewrite (ext_nodes _ _ He). apply Hp. by right. }
    split_and!.
    + by eapply extends_trans.
    + intros b [->|Hb]%elem_of_cons; [|by apply Hh'].
      eapply extends_has_edge; [done|]. by apply link_has_edge.
    + intros Hwf. by apply Hwf', link_wf.
    + intros Hnp Hlf. apply not_elem_of_cons in Hnp as [Hna Hnp].
      by apply Hlf', link_loop_free.
Qed.

Lemma extends_linked k G G' n : extends G G' → linked k G n → linked k G' n.
Proof.
  intros He (picked & Hnd & Hlen & Hp). exists picked. split_and!; [done | |].
  - unfold accomplices. by rewrite (extends_accomplices G G').
  - intros a Ha. destruct (Hp a Ha) as [Hacc Hedge]. split.
    + by apply (extends_is_accomplice G G').
    + by eapply extends_has_edge.
Qed.

Section augment.
Context {R : Type} `{RandomSource R}.

Lemma augment_node_Ok k n G (r : R) G' r' :
  n ∈ g_nodes G →
  augment_node k n (G, r) = Ok (G', r') →
  extends G G' ∧
  (graph_wf G → graph_wf G') ∧
  (loop_free G → loop_free G') ∧
  (NoDup (g_nodes G) → is_fraud G n → linked k G' n).
Proof.
  intros Hn. unfold augment_node.
  destruct (is_str (node_get G n "true_state") "Fraud") eqn:Hf.
  - intros ([picked r1] & [Hsub Hlen]%sample_Ok & [= <- <-])%bind_Ok.
    assert (∀ a, a ∈ picked → is_accomplice G a ∧ a ∈ g_nodes G) as Hacc.
    { intros a Ha. eapply elem_of_submseteq in Ha; [|done].
      by apply list_elem_of_filter in Ha. }
    destruct (link_all G n picked Hn) as (He & Hh & Hwf & Hlf).
    { intros a Ha. by apply Hacc. }
    split_and!; [done | done | |].
    + apply Hlf. intros Hnp. apply Hacc in Hnp as [Hnp _].
      by apply (fraud_not_accomplice G n).
    + intros Hnd _. exists picked. split_and!.
      * eapply submseteq_NoDup; [done|]. by apply NoDup_filter.
      * unfold accomplices. by rewrite (extends_accomplices G _ He).
      * intros a Ha. split; [|by apply Hh].
        apply (extends_is_accomplice G _ _ He). by apply Hacc.
  - intros [= <- <-]. split_and!; [apply extends_refl | done | done |].
    intros _ Hfr. unfold is_fraud in Hfr. congruence.
Qed.

Lemma augment_loop_Ok k ns G (r : R) G' r' :
  (∀ n, n ∈ ns → n ∈ g_nodes G) →
  for_each ns (augment_node k) (G, r) = Ok (G', r') →
  extends G G' ∧
  (graph_wf G → graph_wf G') ∧
  (loop_free G → loop_free G') ∧
  (NoDup (g_nodes G) → ∀ n, n ∈ ns → is_fraud G n → linked k G' n).
Proof.
  revert G r. induction ns as [|n ns IH]; intros G r Hns; simpl.
  - intros [= <- <-]. split_and!; [apply extends_refl | done | done |].
    by intros _ n ?%elem_of_nil.
  - intros ([G1 r1] & Hstep & Hk)%bind_Ok.
    apply augment_node_Ok in Hstep as (He1 & Hwf1 & Hlf1 & Hl1); [|apply Hns; left].
    apply IH in Hk as (He2 & Hwf2 & Hlf2 & Hl2).
    2:{ intros m Hm. rewrite (ext_nodes _ _ He1). apply Hns. by right. }
    split_and!; [by eapply extends_trans | auto | auto |].
    intros Hnd m [->|Hm]%elem_of_cons Hfr.
    + eapply extends_linked; [done|]. by apply Hl1.
    + apply Hl2; [by rewrite (ext_nodes _ _ He1) | done |].
      by apply (extends_is_fraud G G1).
Qed.

Lemma add_fraud_accomplice_edges_Ok G k (r : R) G' r' :
  add_fraud_accomplice_edges G k r = Ok (G', r') →
  extends G G' ∧
  (graph_wf G → graph_wf G') ∧
  (loop_free G → loop_free G') ∧
  (NoDup (g_nodes G) → ∀ n, n ∈ g_nodes G → is_fraud G n → linked k G' n).
Proof. unfold add_fraud_accomplice_edges. by apply augment_loop_Ok. Qed.

End augment.

Lemma linked_accomplice_edges k G n :
  linked k G n →
  Z.min k (Z.of_nat (length (accomplices G))) ≤ Z.of_nat (accomplice_edges G n).
Proof.
  intros (picked & Hnd & Hlen & Hp). rewrite <- Hlen. apply inj_le.
  unfold accomplice_edges.
  rewrite <- (size_list_to_set (C := gset node) picked) by done.
  rewrite <- (size_dom (D := gset node)). apply subseteq_size.
  intros a Ha%elem_of_list_to_set. destruct (Hp a Ha) as [Hacc Hedge].
  apply has_edge_is_Some in Hedge as [d Hd].
  apply elem_of_dom. exists d. by apply map_lookup_filter_Some.
Qed.

(** The executable source and generator meet the two contracts. *)

Lemma lcg_randbelow_lt s n : (0 < n)%nat → (fst (Lcg.randbelow s n) < n)%nat.
Proof.
  intros Hn. unfold Lcg.randbelow; cbn [fst].
  pose proof (Z.mod_pos_bound (Lcg.step s `div` 65536) (Z.of_nat n)). lia.
Qed.

Lemma lcg_draw_spec {A} k (pool : list A) s :
  fst (Lcg.draw k pool s) ⊆+ pool ∧
  ((k ≤ length pool)%nat → length (fst (Lcg.draw k pool s)) = k).
Proof.
  revert pool s. induction k as [|k IH]; intros pool s; cbn [Lcg.draw].
  - split; [apply submseteq_nil_l | done].
  - destruct (Lcg.randbelow s (length pool)) as [j s1] eqn:Hj.
    destruct (pool !! j) as [x|] eqn:Hx.
    + specialize (IH (delete j pool) s1).
      destruct (Lcg.draw k (delete j pool) s1) as [xs s2]. simpl in *.
      destruct IH as [Hsub Hlen]. split.
      * trans (x :: delete j pool); [by apply submseteq_skip|].
        apply Permutation_submseteq. symmetry. by apply delete_Permutation.
      * intros Hk. rewrite Hlen; [done|].
        rewrite length_delete by eauto. lia.
    + simpl. split; [apply submseteq_nil_l|]. intros Hk.
      apply lookup_ge_None in Hx.
      pose proof (lcg_randbelow_lt s (length pool)) as Hlt.
      rewrite Hj in Hlt. simpl in Hlt. lia.
Qed.

Lemma lcg_sample_spec {A} (s : Z) (population : list A) (k : Z) :
  match Lcg.sample s population k with
  | Ok (picked, _) => picked ⊆+ population ∧ Z.of_nat (length picked) = k
  | Raise e => e = ValueError ∧ (k < 0 ∨ Z.of_nat (length population) < k)
  | OutOfFuel => False
  end.
Proof.
  unfold Lcg.sample. case_bool_decide as Hk; [done|].
  pose proof (lcg_draw_spec (Z.to_nat k) population s) as [Hsub Hlen].
  destruct (Lcg.draw (Z.to_nat k) population s) as [picked s']. simpl in *.
  split; [done|]. rewrite Hlen; lia.
Qed.

Lemma lcg_pick_elem population weights x p :
  Lcg.pick population weights x = Some p → p ∈ population.
Proof.
  revert weights x. induction population as [|q population IH]; intros weights x; simpl.
  - done.
  - destruct population as [|q' population].
    + intros [= ->]. left.
    + destruct weights as [|w weights]; [done|].
      destruct (Qlt_le_dec x w).
      * intros [= ->]. left.
      * intros Hp. right. by eapply IH.
Qed.

Lemma lcg_choices_elem s population weights x s' :
  Lcg.choices s population weights = Ok (x, s') → x ∈ population.
Proof.
  unfold Lcg.choices. case_bool_decide; [done|].
  destruct (Qlt_le_dec 0 (foldr Qplus 0%Q weights)); [|done].
  destruct (Lcg.random s) as [y s1].
  destruct (Lcg.pick population weights _) as [p|] eqn:Hp; [|done].
  intros [= <- <-]. by eapply lcg_pick_elem.
Qed.

Lemma lcg_choice_elem s population x s' :
  Lcg.choice s population = Ok (x, s') → x ∈ population.
Proof.
  unfold Lcg.choice. destruct (Lcg.randbelow s (length population)) as [j s1].
  destruct (population !! j) as [p|] eqn:Hp; [|done].
  intros [= <- <-]. by eapply list_elem_of_lookup_2.
Qed.

#[global] Instance lcg_random : RandomSource Z := {|
  seed := λ a, a `mod` 2147483648;
  sample := @Lcg.sample;
  uniform := Lcg.uniform;
  choices := Lcg.choices;
  choice := Lcg.choice;
  sample_spec := @lcg_sample_spec;
  choices_elem := lcg_choices_elem;
  choice_elem := lcg_choice_elem
|}.

Lemma empty_graph_neighbors n u : neighbors (Lcg.empty_graph n) u = ∅.
Proof.
  unfold neighbors, Lcg.empty_graph; simpl.
  destruct (list_to_map _ !! u) as [d|] eqn:Hd; [|done].
  apply elem_of_list_to_map_2, list_elem_of_fmap in Hd as (i & [= _ ->] & _). done.
Qed.

Lemma empty_graph_simple n : simple_on (seq 0 n) (Lcg.empty_graph n).
Proof.
  split; [done | split |].
  - apply NoDup_seq.
  - intros i. simpl. split.
    + intros Hi. exists ∅. apply elem_of_list_to_map_1.
      * rewrite <- list_fmap_compose. simpl. rewrite list_fmap_id. apply NoDup_seq.
      * apply list_elem_of_fmap. by exists i.
    + intros [d Hd]. apply elem_of_list_to_map_2, list_elem_of_fmap in Hd
        as (j & [= -> _] & Hj). done.
  - intros u v. rewrite empty_graph_neighbors, lookup_empty. by intros [? ?].
  - intros u v. by rewrite !empty_graph_neighbors, !lookup_empty.
  - intros i. unfold has_edge. rewrite empty_graph_neighbors, lookup_empty.
    apply bool_decide_eq_false_2. by intros [? ?].
Qed.

Lemma fold_add_edge_simple nodes_list u targets G :
  simple_on nodes_list G → u ∈ nodes_list →
  (∀ t, t ∈ targets → t ∈ nodes_list ∧ u ≠ t) →
  simple_on nodes_list (foldl (λ G t, add_edge u t ∅ G) G targets).
Proof.
  revert G. induction targets as [|t targets IH]; intros G Hso Hu Ht; simpl; [done|].
  apply IH; [| done | intros; apply Ht; by right].
  destruct (Ht t) as [Htn Hne]; [left|]. by apply simple_on_add_edge.
Qed.

Lemma attach_simple nodes_list m sources G s :
  simple_on nodes_list G →
  (∀ source, source ∈ sources →
     source ∈ nodes_list ∧ ∀ t, (t < source)%nat → t ∈ nodes_list) →
  simple_on nodes_list (fst (Lcg.attach m sources G s)).
Proof.
  revert G s. induction sources as [|source sources IH]; intros G s Hso Hsrc; simpl; [done|].
  pose proof (lcg_draw_spec m (seq 0 source) s) as [Hsub _].
  destruct (Lcg.draw m (seq 0 source) s) as [targets s1]. simpl in Hsub.
  destruct (Hsrc source) as [Hin Hlt]; [left|].
  apply IH; [| intros; apply Hsrc; by right].
  apply fold_add_edge_simple; [done | done |].
  intros t Ht. eapply elem_of_submseteq in Ht; [|done].
  apply elem_of_seq in Ht. split; [apply Hlt|]; lia.
Qed.

Lemma lcg_barabasi_albert_spec n m (s : Z) :
  match Lcg.barabasi_albert_graph n m s with
  | Ok (G, _) =>
      1 ≤ m < n ∧ g_nodes G = seq 0 (Z.to_nat n) ∧ graph_wf G ∧ loop_free G
  | Raise e => e = NetworkXError ∧ (m < 1 ∨ n ≤ m)
  | OutOfFuel => False
  end.
Proof.
  unfold Lcg.barabasi_albert_graph. case_bool_decide as Hm; [done|].
  match goal with |- context [Lcg.attach ?a ?b ?c ?d] =>
    pose proof (attach_simple (seq 0 (Z.to_nat n)) a b c d) as Hso;
    destruct (Lcg.attach a b c d) as [G s'] end.
  simpl in Hso. destruct Hso as [Hn Hwf Hlf].
  - apply fold_add_edge_simple; [apply empty_graph_simple | |].
    + apply elem_of_seq. lia.
    + intros t Ht%elem_of_seq. split; [apply elem_of_seq|]; lia.
  - intros source Hsrc%elem_of_seq. split; [apply elem_of_seq; lia|].
    intros t Ht. apply elem_of_seq. lia.
  - split_and!; [lia | lia | done | done | done].
Qed.

#[global] Instance lcg_barabasi_albert : BarabasiAlbert Z := {|
  barabasi_albert_graph := Lcg.barabasi_albert_graph;
  barabasi_albert_spec := lcg_barabasi_albert_spec
|}.

(** ** The whole generation *)

Section generate.
Context {R : Type} `{RandomSource R} `{BarabasiAlbert R}.

Lemma generate_Ok fuel num_nodes target_edges initial_belief state_distribution
    (ambient : R) G counts r' :
  generate_synthetic_network fuel num_nodes target_edges
    initial_belief state_distribution ambient = Ok (G, counts, r') →
  2 ≤ num_nodes ∧
  simple_on (seq 0 (Z.to_nat num_nodes)) G ∧
  target_edges ≤ Z.of_nat (number_of_edges G) ∧
  (∀ n, n ∈ g_nodes G →
     node_labelled (default default_initial_belief initial_belief) G n).
Proof.
  unfold generate_synthetic_network.
  intros ([G0 r1] & (Hn & Hso & Hge)%generate_topology_Ok & Hk)%bind_Ok.
  apply bind_Ok in Hk as ([[G1 counts1] r2] & (Hrl & Hlab)%assign_roles_Ok & Hk).
  apply bind_Ok in Hk as ([] & _ & Hk).
  apply bind_Ok in Hk as ([] & _ & Hk).
  injection Hk as <- <- <-.
  split_and!; [done | by eapply relabels_simple_on | | done].
  by rewrite (relabels_number_of_edges G0 G1).
Qed.

End generate.

(** ** Loops that end at once, fail at once, or cannot end *)

Lemma for_each_cons {A S : Type} (x : A) (xs : list A) (body : A → S → outcome S) (s : S) :
  for_each (x :: xs) body s = body x s ≫= for_each xs body.
Proof. reflexivity. Qed.

(** The loop body is not entered once the target is met. *)
Lemma top_up_done {R : Type} `{RandomSource R}
    fuel target_edges nodes_list G existing_edges (r : R) :
  target_edges ≤ Z.of_nat (number_of_edges G) →
  top_up fuel target_edges nodes_list G existing_edges r = Ok (G, existing_edges, r).
Proof. intros Hge. destruct fuel; simpl; by rewrite bool_decide_eq_false_2 by lia. Qed.

Lemma assign_node_missing {R : Type} `{RandomSource R}
    initial_belief state_distribution key n (st : Graph * gmap string Z * R) :
  first_missing state_distribution = Some key →
  assign_node initial_belief state_distribution n st = Raise (KeyError key).
Proof.
  destruct st as [[G counts] r]. unfold first_missing, categories, assign_node, getitem.
  rewrite !filter_cons, filter_nil.
  destruct (state_distribution !! "Fraud") as [wf|] eqn:Hf; simpl.
  - destruct (state_distribution !! "Accomplice") as [wa|] eqn:Ha; simpl.
    + destruct (state_distribution !! "Honest") as [wh|] eqn:Hh; simpl.
      * repeat case_decide; done.
      * repeat case_decide; try done. by intros [= <-].
    + repeat case_decide; try done. by intros [= <-].
  - repeat case_decide; try done. by intros [= <-].
Qed.

(** When the target exceeds the number of node pairs, the call never
    returns, whatever fuel the loop is given. *)
Lemma generate_exhausted {R : Type} `{RandomSource R} `{BarabasiAlbert R}
    fuel num_nodes target_edges initial_belief state_distribution (ambient : R) :
  2 ≤ num_nodes →
  target_edges `div` num_nodes < num_nodes →
  (num_nodes * (num_nodes - 1)) `div` 2 < target_edges →
  generate_synthetic_network fuel num_nodes target_edges
    initial_belief state_distribution ambient = OutOfFuel.
Proof.
  intros Hn Hm Hbig. unfold generate_synthetic_network, generate_topology, floordiv.
  rewrite bool_decide_eq_false_2 by lia. simpl.
  pose proof (barabasi_albert_spec num_nodes
                (Z.max 1 (target_edges `div` num_nodes)) (seed 42)) as Hba.
  destruct (barabasi_albert_graph _ _ _) as [[G r1]| |]; [| lia | done].
  destruct Hba as (_ & Hnodes & Hwf & Hlf). simpl.
  rewrite top_up_exhausted; [done | by split | |].
  - rewrite Hnodes, length_seq. lia.
  - rewrite Hnodes, length_seq.
    rewrite Nat2Z.inj_div, Nat2Z.inj_mul, Nat2Z.inj_sub, Z2Nat.id by lia. done.
Qed.

Lemma node_labelled_get initial_belief G n :
  node_labelled initial_belief G n →
  (∃ s, node_get G n "true_state" = Some (VStr s) ∧ s ∈ categories) ∧
  (∃ s, node_get G n "state" = Some (VStr s) ∧ s ∈ categories) ∧
  ∃ b_fraud b_accomplice b_honest,
    initial_belief !! "Fraud" = Some b_fraud ∧
    initial_belief !! "Accomplice" = Some b_accomplice ∧
    initial_belief !! "Honest" = Some b_honest ∧
    node_get G n "belief_fraud" = Some (VNum b_fraud) ∧
    node_get G n "belief_accomplice" = Some (VNum b_accomplice) ∧
    node_get G n "belief_honest" = Some (VNum b_honest).
Proof.
  intros (d & Hd & [Hts Hst (bf & Hbf & Hdf) (ba & Hba & Hda) (bh & Hbh & Hdh)]).
  unfold node_get. rewrite Hd. simpl. split_and!; [done | done |].
  by exists bf, ba, bh.
Qed.

(** ** Fuel *)

(** A loop that has ended, or failed, does the same with more fuel. *)
Lemma top_up_more_fuel {R : Type} `{RandomSource R}
    fuel fuel' target_edges nodes_list G existing_edges (r : R) o :
  top_up fuel target_edges nodes_list G existing_edges r = o →
  o ≠ OutOfFuel → (fuel ≤ fuel')%nat →
  top_up fuel' target_edges nodes_list G existing_edges r = o.
Proof.
  revert fuel' G existing_edges r.
  induction fuel as [|fuel IH]; intros fuel' G existing_edges r; simpl.
  - case_bool_decide as Hlt; [by intros <- |].
    intros <- _ _. apply top_up_done. lia.
  - destruct fuel' as [|fuel']; [lia|]. simpl.
    case_bool_decide as Hlt; [|done].
    destruct (sample r nodes_list 2) as [[picked r1]|e|]; simpl; [|done|done].
    destruct picked as [|node1 [|node2 [|node3 picked]]]; try done.
    destruct (bool_decide ((node1, node2) ∉ existing_edges)
              && bool_decide ((node2, node1) ∉ existing_edges)).
    + destruct (uniform r1 (1 # 10) 1) as [w r2].
      intros Ho Hne Hle. apply IH; [done | done | lia].
    + intros Ho Hne Hle. apply IH; [done | done | lia].
Qed.

Lemma generate_more_fuel {R : Type} `{RandomSource R} `{BarabasiAlbert R}
    fuel fuel' num_nodes target_edges initial_belief state_distribution
    (ambient ambient' : R) result :
  generate_synthetic_network fuel num_nodes target_edges
    initial_belief state_distribution ambient = Ok result →
  (fuel ≤ fuel')%nat →
  generate_synthetic_network fuel' num_nodes target_edges
    initial_belief state_distribution ambient' = Ok result.
Proof.
  unfold generate_synthetic_network, generate_topology.
  destruct (floordiv target_edges num_nodes) as [q| |]; simpl; [|done|done].
  destruct (barabasi_albert_graph num_nodes (Z.max 1 q) (seed 42))
    as [[G0 r1]| |]; simpl; [|done|done].
  destruct (top_up fuel target_edges (g_nodes G0) G0 (list_to_set (edges G0)) r1)
    as [[[G1 ex] r2]|e|] eqn:Ht; simpl; [|done|done].
  intros Hrest Hle.
  by rewrite (top_up_more_fuel fuel fuel' _ _ _ _ _ _ Ht).
Qed.

(** ** The runnable checks are sound *)

Lemma neighbors_Some G u v d :
  neighbors G u !! v = Some d → ∃ nbrs, g_adj G !! u = Some nbrs ∧ nbrs !! v = Some d.
Proof.
  unfold neighbors. destruct (g_adj G !! u) as [nbrs|]; simpl; [eauto|].
  by rewrite lookup_empty.
Qed.

Lemma graph_wfb_sound G : graph_wfb G = true → graph_wf G.
Proof.
  unfold graph_wfb. rewrite !andb_true_iff, !bool_decide_eq_true.
  intros [[Hnd Hdom] Hadj].
  assert (∀ u v d, neighbors G u !! v = Some d →
            u ∈ g_nodes G ∧ v ∈ g_nodes G ∧ neighbors G v !! u = Some d) as Hedge.
  { intros u v d (nbrs & Hu & Hv)%neighbors_Some.
    destruct (Hadj u nbrs Hu) as [Hin Hall]. destruct (Hall v d Hv). done. }
  split; [done | | |].
  - intros n. rewrite <- elem_of_dom, Hdom. by rewrite elem_of_list_to_set.
  - intros u v [d Hd]. by destruct (Hedge u v d Hd) as (? & ? & _).
  - intros u v. destruct (neighbors G u !! v) as [d|] eqn:Huv.
    + by destruct (Hedge u v d Huv) as (_ & _ & ->).
    + destruct (neighbors G v !! u) as [d|] eqn:Hvu; [|done].
      destruct (Hedge v u d Hvu) as (_ & _ & Huv'). congruence.
Qed.

Lemma loop_freeb_sound G : loop_freeb G = true → loop_free G.
Proof.
  unfold loop_freeb. rewrite bool_decide_eq_true. intros Hadj n.
  unfold has_edge. apply bool_decide_eq_false_2. intros [d Hd].
  apply neighbors_Some in Hd as (nbrs & Hu & Hv).
  specialize (Hadj n nbrs Hu). simpl in Hadj. congruence.
Qed.

Lemma collusion_demo_wf : graph_wf collusion_demo.
Proof. apply graph_wfb_sound. by vm_compute. Qed.

Lemma collusion_open_wf : graph_wf collusion_open.
Proof. apply graph_wfb_sound. by vm_compute. Qed.

Lemma collusion_open_loop_free : loop_free collusion_open.
Proof. apply loop_freeb_sound. by vm_compute. Qed.

(** ** The edge view lists every adjacent pair *)

Lemma edges_from_complete G seen ns u v :
  (∀ x y, neighbors G x !! y = neighbors G y !! x) →
  u ∈ ns → v ∈ ns → (u ∉ seen) → (v ∉ seen) →
  is_Some (neighbors G u !! v) →
  (u, v) ∈ edges_from G seen ns ∨ (v, u) ∈ edges_from G seen ns.
Proof.
  intros Hsym. revert seen.
  induction ns as [|n ns IH]; intros seen Hu Hv Hus Hvs Huv; [by apply elem_of_nil in Hu|].
  cbn [edges_from]. rewrite !elem_of_app.
  destruct (decide (u = n)) as [->|Hun].
  - left; left. apply list_elem_of_fmap. exists v. split; [done|].
    by apply fresh_neighbors_elem.
  - destruct (decide (v = n)) as [->|Hvn].
    + right; left. apply list_elem_of_fmap. exists u. split; [done|].
      apply fresh_neighbors_elem. split; [done|]. by rewrite Hsym.
    + apply elem_of_cons in Hu as [?|Hu]; [done|].
      apply elem_of_cons in Hv as [?|Hv]; [done|].
      destruct (IH ({[n]} ∪ seen)) as [?|?]; [done | done | set_solver | set_solver | done | |].
      * left; by right.
      * right; by right.
Qed.

Lemma edges_has_edge G u v :
  graph_wf G →
  has_edge G u v = true ↔ (u, v) ∈ edges G ∨ (v, u) ∈ edges G.
Proof.
  intros Hwf. rewrite has_edge_is_Some. split.
  - intros Huv. destruct (wf_closed _ Hwf u v Huv) as [Hu Hv].
    apply edges_from_complete; [apply Hwf | done | done | set_solver | set_solver | done].
  - intros [Hin|Hin]; apply edges_from_elem in Hin as (_ & _ & Hs); [done|].
    by rewrite (wf_sym _ Hwf).
Qed.

(** ** What one new edge does to the edge count *)

Lemma filter_eq_absent (u : node) (l : list node) :
  u ∉ l → filter (λ x, x = u) l = [].
Proof.
  induction l as [|a l IH]; intros Hu; [done|].
  apply not_elem_of_cons in Hu as [Hne Hu].
  rewrite filter_cons_False by done. by apply IH.
Qed.

Lemma filter_eq_length (u : node) (l : list node) :
  NoDup l → u ∈ l → length (filter (λ x, x = u) l) = 1%nat.
Proof.
  induction l as [|a l IH]; intros Hnd Hu; [by apply elem_of_nil in Hu|].
  apply NoDup_cons in Hnd as [Ha Hnd]. rewrite filter_cons.
  destruct (decide (a = u)) as [->|Hne].
  - by rewrite filter_eq_absent.
  - apply IH; [done|]. by apply elem_of_cons in Hu as [?|?].
Qed.

Section new_edge.
Context (G : Graph) (u v : node) (attr : gmap string value).
Context (Hwf : graph_wf G) (Hu : u ∈ g_nodes G) (Hv : v ∈ g_nodes G).
Context (Huv : u ≠ v) (Hnew : has_edge G u v = false).

Lemma new_edge_lookup x y :
  neighbors (add_edge u v attr G) x !! y =
    if bool_decide ((x = u ∧ y = v) ∨ (x = v ∧ y = u)) then Some attr
    else neighbors G x !! y.
Proof.
  rewrite neighbors_add_edge by done.
  pose proof Hnew as Hnone. apply bool_decide_eq_false in Hnone.
  destruct (neighbors G u !! v) as [d|] eqn:Hd; [exfalso; eauto|].
  simpl. by rewrite (right_id_L ∅ (∪)).
Qed.

Lemma new_edge_degree x :
  degree (add_edge u v attr G) x
  = (degree G x + (if bool_decide (x = u) then 1 else 0)
     + (if bool_decide (x = v) then 1 else 0))%nat.
Proof.
  pose proof Hnew as Hnone. apply bool_decide_eq_false in Hnone.
  assert (neighbors G u !! v = None) as Huv'.
  { destruct (neighbors G u !! v) eqn:E; [exfalso; eauto | done]. }
  assert (neighbors G v !! u = None) as Hvu' by (by rewrite <- (wf_sym _ Hwf)).
  unfold degree, self_loop.
  assert (bool_decide (is_Some (neighbors (add_edge u v attr G) x !! x))
          = bool_decide (is_Some (neighbors G x !! x))) as ->.
  { rewrite new_edge_lookup.
    by rewrite (bool_decide_eq_false_2 ((x = u ∧ x = v) ∨ (x = v ∧ x = u)))
      by naive_solver. }
  destruct (decide (x = u)) as [->|Hxu]; [|destruct (decide (x = v)) as [->|Hxv]].
  - assert (neighbors (add_edge u v attr G) u = <[v := attr]> (neighbors G u)) as ->.
    { apply map_eq. intros y. rewrite new_edge_lookup.
      destruct (decide (y = v)) as [->|Hy].
      - rewrite lookup_insert_eq. by rewrite bool_decide_eq_true_2 by naive_solver.
      - rewrite lookup_insert_ne by done.
        by rewrite bool_decide_eq_false_2 by naive_solver. }
    rewrite map_size_insert_None by done.
    rewrite (bool_decide_eq_true_2 (u = u)) by done.
    rewrite (bool_decide_eq_false_2 (u = v)) by done. lia.
  - assert (neighbors (add_edge u v attr G) v = <[u := attr]> (neighbors G v)) as ->.
    { apply map_eq. intros y. rewrite new_edge_lookup.
      destruct (decide (y = u)) as [->|Hy].
      - rewrite lookup_insert_eq. by rewrite bool_decide_eq_true_2 by naive_solver.
      - rewrite lookup_insert_ne by done.
        by rewrite bool_decide_eq_false_2 by naive_solver. }
    rewrite map_size_insert_None by done.
    rewrite (bool_decide_eq_true_2 (v = v)) by done.
    rewrite (bool_decide_eq_false_2 (v = u)) by done. lia.
  - assert (neighbors (add_edge u v attr G) x = neighbors G x) as ->.
    { apply map_eq. intros y. rewrite new_edge_lookup.
      by rewrite bool_decide_eq_false_2 by naive_solver. }
    rewrite (bool_decide_eq_false_2 (x = u)), (bool_decide_eq_false_2 (x = v)) by done.
    lia.
Qed.

Lemma new_edge_count :
  number_of_edges (add_edge u v attr G) = S (number_of_edges G).
Proof.
  unfold number_of_edges. rewrite add_edge_nodes by done.
  rewrite (sum_list_with_ext _ (λ x, (degree G x + (if bool_decide (x = u) then 1 else 0))
                                     + (if bool_decide (x = v) then 1 else 0))%nat).
  2:{ intros x _. apply new_edge_degree. }
  rewrite !sum_list_with_plus, !sum_list_with_indicator.
  rewrite !filter_eq_length by (done || apply Hwf).
  replace (sum_list_with (degree G) (g_nodes G) + 1 + 1)%nat
    with (sum_list_with (degree G) (g_nodes G) + 1 * 2)%nat by lia.
  rewrite Nat.div_add by done. lia.
Qed.

End new_edge.

(** ** The top-up loop, edge by edge *)

Lemma topped_up_refl P G : topped_up P G G.
Proof. intros x y. by left. Qed.

Lemma topped_up_weaken (P P' : Q → Prop) G G' :
  (∀ w, P w → P' w) → topped_up P G G' → topped_up P' G G'.
Proof.
  intros HP Ht x y. destruct (Ht x y) as [?|(Hn & w & Hw & Hs)]; [by left|].
  right. split; [done|]. exists w. auto.
Qed.

Lemma tracks_edges G : graph_wf G → tracks (list_to_set (edges G)) G.
Proof.
  intros Hwf u v. rewrite !elem_of_list_to_set. by apply edges_has_edge.
Qed.

Section top_up_exact.
Context {R : Type} `{RandomSource R}.

Lemma top_up_exact fuel target_edges nodes_list G existing_edges (r : R)
    G' existing_edges' r' :
  simple_on nodes_list G →
  tracks existing_edges G →
  top_up fuel target_edges nodes_list G existing_edges r = Ok (G', existing_edges', r') →
  tracks existing_edges' G' ∧
  topped_up drawn_weight G G' ∧
  Z.of_nat (number_of_edges G') = Z.max (Z.of_nat (number_of_edges G)) target_edges.
Proof.
  revert G existing_edges r.
  induction fuel as [|fuel IH]; intros G existing_edges r Hso Htr; simpl.
  - case_bool_decide as Hlt; [done|]. intros [= <- <- <-].
    split_and!; [done | apply topped_up_refl | lia].
  - case_bool_decide as Hlt.
    2:{ intros [= <- <- <-]. split_and!; [done | apply topped_up_refl | lia]. }
    intros ([picked r1] & Hs & Hk)%bind_Ok.
    apply sample_two in Hs as (node1 & node2 & -> & H1 & H2 & Hne);
      [| rewrite <- (so_nodes _ _ Hso); apply Hso].
    destruct (bool_decide ((node1, node2) ∉ existing_edges)
              && bool_decide ((node2, node1) ∉ existing_edges)) eqn:Hfree.
    2:{ by apply IH in Hk. }
    apply andb_true_iff in Hfree as [Hf1%bool_decide_eq_true Hf2%bool_decide_eq_true].
    destruct (uniform r1 (1 # 10) 1) as [w r2] eqn:Hw.
    assert (has_edge G node1 node2 = false) as Hnew.
    { destruct (has_edge G node1 node2) eqn:He; [|done].
      apply Htr in He as [?|?]; done. }
    rewrite <- (so_nodes _ _ Hso) in H1, H2.
    pose proof (so_wf _ _ Hso) as Hwf.
    apply IH in Hk as (Htr' & Htop & Hcnt).
    + split_and!; [done | |].
      * intros x y. destruct (Htop x y) as [Heq|(Hnone & w' & Hw' & Hsome)].
        -- rewrite Heq, (new_edge_lookup G node1 node2) by done.
           case_bool_decide as Hxy; [|by left].
           right. split.
           ++ apply bool_decide_eq_false in Hnew.
              destruct Hxy as [[-> ->]|[-> ->]].
              ** destruct (neighbors G node1 !! node2) eqn:E; [exfalso; eauto | done].
              ** rewrite (wf_sym _ Hwf).
                 destruct (neighbors G node1 !! node2) eqn:E; [exfalso; eauto | done].
           ++ exists w. split; [|done]. exists r1. by rewrite Hw.
        -- right. rewrite (new_edge_lookup G node1 node2) in Hnone by done.
           case_bool_decide; [done|]. split; [done|]. by exists w'.
      * rewrite Hcnt, (new_edge_count G node1 node2) by done. lia.
    + rewrite (so_nodes _ _ Hso) in H1, H2. by apply simple_on_add_edge.
    + intros u v. rewrite has_edge_add_edge by done.
      rewrite orb_true_iff, bool_decide_eq_true, (Htr u v).
      rewrite !elem_of_union, !elem_of_singleton. naive_solver.
Qed.

End top_up_exact.

(** ** The role counts *)

Section stages.
Context {R : Type} `{RandomSource R} `{BarabasiAlbert R}.

(** The three stages of a run that returns. *)
Lemma generate_stages fuel num_nodes target_edges initial_belief state_distribution
    (ambient : R) G counts r' :
  generate_synthetic_network fuel num_nodes target_edges
    initial_belief state_distribution ambient = Ok (G, counts, r') →
  ∃ G0 r0 G1 existing_edges r1,
    barabasi_albert_graph num_nodes (Z.max 1 (target_edges `div` num_nodes)) (seed 42)
      = Ok (G0, r0) ∧
    top_up fuel target_edges (g_nodes G0) G0 (list_to_set (edges G0)) r0
      = Ok (G1, existing_edges, r1) ∧
    assign_roles (default default_initial_belief initial_belief)
      (default default_state_distribution state_distribution) G1 r1
      = Ok (G, counts, r').
Proof.
  unfold generate_synthetic_network, generate_topology.
  intros ([G1 r1] & Htopo & Hk)%bind_Ok.
  apply bind_Ok in Htopo as (q & [_ ->]%floordiv_Ok & Htopo).
  apply bind_Ok in Htopo as ([G0 r0] & Hba & Htopo).
  apply bind_Ok in Htopo as ([[G1' ex] r1'] & Htop & [= -> ->]).
  apply bind_Ok in Hk as ([[G2 counts2] r2] & Hassign & Hk).
  apply bind_Ok in Hk as ([] & _ & Hk).
  apply bind_Ok in Hk as ([] & _ & [= <- <- <-]).
  by exists G0, r0, G1, ex, r1.
Qed.

Lemma assign_node_counts initial_belief state_distribution n G counts (r : R) G' counts' r' :
  assign_node initial_belief state_distribution n (G, counts, r) = Ok (G', counts', r') →
  ∃ ts k, node_get G' n "true_state" = Some (VStr ts) ∧
          counts !! ts = Some k ∧ counts' = <[ts := k + 1]> counts.
Proof.
  unfold assign_node.
  intros (wf & _ & Hk)%bind_Ok.
  apply bind_Ok in Hk as (wa & _ & Hk).
  apply bind_Ok in Hk as (wh & _ & Hk).
  apply bind_Ok in Hk as ([ts r1] & _ & Hk).
  apply bind_Ok in Hk as (G1 & (d1 & Hd1 & ->)%node_set_Ok & Hk).
  apply bind_Ok in Hk as (bf & _ & Hk).
  apply bind_Ok in Hk as (G2 & (d2 & Hd2 & ->)%node_set_Ok & Hk).
  apply bind_Ok in Hk as (ba & _ & Hk).
  apply bind_Ok in Hk as (G3 & (d3 & Hd3 & ->)%node_set_Ok & Hk).
  apply bind_Ok in Hk as (bh & _ & Hk).
  apply bind_Ok in Hk as (G4 & (d4 & Hd4 & ->)%node_set_Ok & Hk).
  apply bind_Ok in Hk as ([st r2] & _ & Hk).
  apply bind_Ok in Hk as (G5 & (d5 & Hd5 & ->)%node_set_Ok & Hk).
  apply bind_Ok in Hk as (k & Hc%getitem_Ok & Hk).
  injection Hk as <- <- <-. simpl in *.
  rewrite lookup_insert_eq in Hd2, Hd3, Hd4, Hd5.
  injection Hd2 as <-. injection Hd3 as <-. injection Hd4 as <-. injection Hd5 as <-.
  exists ts, k. split_and!; [| done | done].
  unfold node_get. simpl. rewrite lookup_insert_eq. simpl. by simplify_map_eq.
Qed.

Lemma assign_loop_other initial_belief state_distribution ns G counts (r : R) G' counts' r' m :
  for_each ns (assign_node initial_belief state_distribution) (G, counts, r)
    = Ok (G', counts', r') →
  m ∉ ns → g_attr G' !! m = g_attr G !! m.
Proof.
  revert G counts r. induction ns as [|n ns IH]; intros G counts r; simpl.
  - by intros [= <- <- <-].
  - intros ([[G1 counts1] r1] & (_ & _ & Ho)%assign_node_Ok & Hk)%bind_Ok
           [Hne Hm]%not_elem_of_cons.
    rewrite (IH _ _ _ Hk Hm). by apply Ho.
Qed.

Lemma assign_loop_counts initial_belief state_distribution ns G counts (r : R) G' counts' r' c :
  NoDup ns →
  for_each ns (assign_node initial_belief state_distribution) (G, counts, r)
    = Ok (G', counts', r') →
  counts' !! c
  = (λ k, k + Z.of_nat (length
       (filter (λ n, is_str (node_get G' n "true_state") c = true) ns))) <$> counts !! c.
Proof.
  revert G counts r. induction ns as [|n ns IH]; intros G counts r Hnd; simpl.
  - intros [= <- <- <-]. destruct (counts !! c); simpl; [f_equal; lia | done].
  - apply NoDup_cons in Hnd as [Hn Hnd].
    intros ([[G1 counts1] r1] & Hstep & Hk)%bind_Ok.
    apply assign_node_counts in Hstep as (ts & k & Hts & Hck & ->).
    assert (node_get G' n "true_state" = Some (VStr ts)) as Hts'.
    { unfold node_get in *. by rewrite (assign_loop_other _ _ _ _ _ _ _ _ _ _ Hk Hn). }
    rewrite (IH _ _ _ Hnd Hk). rewrite filter_cons, Hts'. simpl.
    destruct (decide (ts = c)) as [->|Hne].
    + rewrite lookup_insert_eq, Hck. simpl.
      rewrite bool_decide_eq_true_2 by done. rewrite decide_True by done. simpl.
      f_equal. lia.
    + rewrite lookup_insert_ne by done.
      rewrite bool_decide_eq_false_2 by done. by rewrite decide_False by done.
Qed.

End stages.

Lemma true_state_partition G (l : list node) :
  (∀ n, n ∈ l → ∃ s, node_get G n "true_state" = Some (VStr s) ∧ s ∈ categories) →
  (length (filter (λ n, is_str (node_get G n "true_state") "Fraud" = true) l)
   + length (filter (λ n, is_str (node_get G n "true_state") "Accomplice" = true) l)
   + length (filter (λ n, is_str (node_get G n "true_state") "Honest" = true) l))%nat
  = length l.
Proof.
  induction l as [|a l IH]; intros Hl; [done|].
  rewrite !filter_cons. destruct (Hl a) as (s & Hs & Hc); [left|].
  unfold categories in Hc. rewrite !elem_of_cons, elem_of_nil in Hc.
  assert (∀ n, n ∈ l → ∃ s, node_get G n "true_state" = Some (VStr s) ∧ s ∈ categories)
    as Hl' by (intros n Hn; apply Hl; by right).
  specialize (IH Hl'). clear Hl Hl'.
  destruct Hc as [->|[->|[->|[]]]]; repeat case_decide;
    repeat match goal with
           | Hd : context [node_get G a "true_state"] |- _ =>
               rewrite Hs in Hd; vm_compute in Hd
           end;
    try done; try (exfalso; auto; fail); simpl; lia.
Qed.

(** ** What the augmentation pass adds *)

Lemma augmented_refl G : augmented G G.
Proof. intros x y. by left. Qed.

Lemma augmented_trans G1 G2 G3 :
  extends G1 G2 → augmented G1 G2 → augmented G2 G3 → augmented G1 G3.
Proof.
  intros Hext H12 H23 x y.
  destruct (H23 x y) as [Heq|(Hn & Hs & Hfa)].
  - rewrite Heq. apply H12.
  - destruct (H12 x y) as [Heq|(Hn' & Hs' & _)]; [|congruence].
    right. split_and!; [congruence | done |].
    by rewrite <- !(extends_is_fraud G1 G2), <- !(extends_is_accomplice G1 G2).
Qed.

Lemma has_edge_false G u v : has_edge G u v = false → neighbors G u !! v = None.
Proof.
  intros Hf%bool_decide_eq_false.
  destruct (neighbors G u !! v) eqn:E; [exfalso; eauto | done].
Qed.

Section link_new.
Context (G : Graph) (n a : node).
Context (Hwf : graph_wf G) (Hn : n ∈ g_nodes G) (Ha : a ∈ g_nodes G).
Context (Hfr : is_fraud G n) (Hacc : is_accomplice G a).

Lemma link_augmented : augmented G (link n G a).
Proof.
  unfold link. destruct (has_edge G n a) eqn:He; [apply augmented_refl|].
  assert (n ≠ a) as Hne by (intros ->; by eapply fraud_not_accomplice).
  intros x y. rewrite (new_edge_lookup G n a) by done.
  case_bool_decide as Hxy; [|by left]. right.
  apply has_edge_false in He.
  destruct Hxy as [[-> ->]|[-> ->]].
  - split_and!; [done | done | by left].
  - split_and!; [by rewrite (wf_sym _ Hwf) | done | by right].
Qed.

Lemma link_count : (number_of_edges (link n G a) ≤ S (number_of_edges G))%nat.
Proof.
  unfold link. destruct (has_edge G n a) eqn:He; [lia|].
  assert (n ≠ a) as Hne by (intros ->; by eapply fraud_not_accomplice).
  by rewrite (new_edge_count G n a).
Qed.

End link_new.

Lemma link_all_new G n picked :
  graph_wf G → n ∈ g_nodes G → is_fraud G n →
  (∀ a, a ∈ picked → a ∈ g_nodes G ∧ is_accomplice G a) →
  let G' := foldl (link n) G picked in
  augmented G G' ∧
  (number_of_edges G' ≤ number_of_edges G + length picked)%nat.
Proof.
  revert G. induction picked as [|a picked IH]; intros G Hwf Hn Hfr Hp; simpl.
  - split; [apply augmented_refl | lia].
  - destruct (Hp a) as [Ha Hacc]; [left|].
    pose proof (link_extends G n Hn a Ha) as He.
    destruct (IH (link n G a)) as (Haug & Hcnt).
    + by apply link_wf.
    + by rewrite (ext_nodes _ _ He).
    + by apply (extends_is_fraud G).
    + intros b Hb. destruct (Hp b) as [? ?]; [by right|].
      split; [by rewrite (ext_nodes _ _ He) | by apply (extends_is_accomplice G)].
    + split.
      * eapply augmented_trans; [done | by apply link_augmented | done].
      * pose proof (link_count G n a Hwf Hn Ha Hfr Hacc). lia.
Qed.

Section augment_more.
Context {R : Type} `{RandomSource R}.

Lemma augment_node_more k n G (r : R) G' r' :
  graph_wf G → n ∈ g_nodes G →
  augment_node k n (G, r) = Ok (G', r') →
  augmented G G' ∧
  (number_of_edges G' ≤ number_of_edges G
     + (if bool_decide (is_fraud G n)
        then Z.to_nat (Z.min k (Z.of_nat (length (accomplices G)))) else 0))%nat ∧
  ((accomplices G = [] ∨ k = 0) → G' = G) ∧
  (¬ is_fraud G n → G' = G ∧ r' = r).
Proof.
  intros Hwf Hn. unfold augment_node.
  destruct (decide (is_fraud G n)) as [Hfr|Hfr].
  - rewrite bool_decide_eq_true_2 by done.
    pose proof Hfr as Hf. unfold is_fraud in Hf. rewrite Hf.
    intros ([picked r1] & [Hsub Hlen]%sample_Ok & [= <- <-])%bind_Ok.
    destruct (link_all_new G n picked) as (Haug & Hcnt); [done | done | done | |].
    { intros a Ha. eapply elem_of_submseteq in Ha; [|done].
      apply list_elem_of_filter in Ha as [? ?]. done. }
    split_and!; [done | lia | | done].
    intros Hnone. destruct picked as [|a picked]; [done|].
    destruct Hnone as [Hnone| ->].
    + rewrite Hnone in Hsub. by apply submseteq_nil_r in Hsub.
    + simpl in Hlen. lia.
  - rewrite bool_decide_eq_false_2 by done.
    assert (is_str (node_get G n "true_state") "Fraud" = false) as ->.
    { unfold is_fraud in Hfr. by destruct (is_str _ _). }
    intros [= <- <-].
    split_and!; [apply augmented_refl | lia | done | done].
Qed.

Lemma frauds_cons_length G G' (ns : list node) :
  extends G G' →
  length (filter (is_fraud G') ns) = length (filter (is_fraud G) ns).
Proof.
  intros He. f_equal. apply list_filter_iff. intros m. by apply extends_is_fraud.
Qed.

Lemma augment_loop_more k ns G (r : R) G' r' :
  graph_wf G → (∀ n, n ∈ ns → n ∈ g_nodes G) →
  for_each ns (augment_node k) (G, r) = Ok (G', r') →
  augmented G G' ∧
  (number_of_edges G' ≤ number_of_edges G
     + length (filter (is_fraud G) ns)
       * Z.to_nat (Z.min k (Z.of_nat (length (accomplices G)))))%nat ∧
  ((accomplices G = [] ∨ k = 0) → G' = G) ∧
  (filter (is_fraud G) ns = [] → G' = G ∧ r' = r).
Proof.
  revert G r. induction ns as [|n ns IH]; intros G r Hwf Hns; simpl.
  - intros [= <- <-]. split_and!; [apply augmented_refl | lia | done | done].
  - intros ([G1 r1] & Hstep & Hk)%bind_Ok.
    pose proof Hstep as Hstep'.
    apply augment_node_Ok in Hstep' as (He1 & Hwf1 & _); [|apply Hns; left].
    apply augment_node_more in Hstep as (Ha1 & Hc1 & Hn1 & Hf1); [| done | apply Hns; left].
    apply IH in Hk as (Ha2 & Hc2 & Hn2 & Hf2); [| by apply Hwf1 |].
    2:{ intros m Hm. rewrite (ext_nodes _ _ He1). apply Hns. by right. }
    unfold accomplices in Hc2, Hn2. rewrite (extends_accomplices G G1) in Hc2, Hn2 by done.
    rewrite (frauds_cons_length G G1 ns) in Hc2 by done.
    split_and!.
    + by eapply augmented_trans.
    + rewrite filter_cons. unfold accomplices in *.
      destruct (decide (is_fraud G n)) as [Hfr|Hfr].
      * rewrite bool_decide_eq_true_2 in Hc1 by done. simpl. lia.
      * rewrite bool_decide_eq_false_2 in Hc1 by done. lia.
    + intros Hnone. rewrite Hn2 by done. by apply Hn1.
    + rewrite filter_cons. destruct (decide (is_fraud G n)) as [Hfr|Hfr]; [done|].
      intros Hnil. destruct (Hf1 Hfr) as [-> ->]. by apply Hf2.
Qed.

Lemma augment_node_skip k n G (r : R) :
  ¬ is_fraud G n → augment_node k n (G, r) = Ok (G, r).
Proof.
  intros Hfr. unfold augment_node.
  assert (is_str (node_get G n "true_state") "Fraud" = false) as ->; [|done].
  unfold is_fraud in Hfr. by destruct (is_str _ _).
Qed.

Lemma augment_node_returns k n G (r : R) :
  0 ≤ k → ∃ G' r', augment_node k n (G, r) = Ok (G', r').
Proof.
  intros Hk. unfold augment_node.
  destruct (is_str (node_get G n "true_state") "Fraud"); [|eauto].
  destruct (sample_defined r (accomplices G)
              (Z.min k (Z.of_nat (length (accomplices G))))) as (picked & r1 & Hs); [lia|].
  cbn zeta. rewrite Hs. simpl. eauto.
Qed.

Lemma augment_node_negative k n G (r : R) :
  k < 0 → is_fraud G n → augment_node k n (G, r) = Raise ValueError.
Proof.
  intros Hk Hfr. unfold augment_node. unfold is_fraud in Hfr. rewrite Hfr. cbn zeta.
  pose proof (sample_spec r (accomplices G)
                (Z.min k (Z.of_nat (length (accomplices G))))) as Hs.
  destruct (sample r _ _) as [[picked r1]|e|]; [lia | | done].
  destruct Hs as [-> _]. reflexivity.
Qed.

(** A non-negative bound always lets the pass return. *)
Lemma augment_loop_returns k ns G (r : R) :
  0 ≤ k → ∃ G' r', for_each ns (augment_node k) (G, r) = Ok (G', r').
Proof.
  intros Hk. revert G r. induction ns as [|n ns IH]; intros G r; [by eexists _, _|].
  rewrite for_each_cons.
  destruct (augment_node_returns k n G r Hk) as (G1 & r1 & ->). simpl. apply IH.
Qed.

(** A negative bound makes the pass fail at the first Fraud node. *)
Lemma augment_loop_negative k ns G (r : R) :
  k < 0 → (∃ n, n ∈ ns ∧ is_fraud G n) →
  for_each ns (augment_node k) (G, r) = Raise ValueError.
Proof.
  intros Hk. induction ns as [|n ns IH]; intros (m & Hm & Hfr).
  - by apply elem_of_nil in Hm.
  - rewrite for_each_cons.
    destruct (decide (is_fraud G n)) as [Hn|Hn].
    + by rewrite augment_node_negative.
    + rewrite augment_node_skip by done. simpl. apply IH. exists m. split; [|done].
      apply elem_of_cons in Hm as [->|Hm]; done.
Qed.

End augment_more.

(** A bound of at least the number of Accomplice nodes links a Fraud node
    to every one of them. *)
Lemma linked_all k G n a :
  graph_wf G → Z.of_nat (length (accomplices G)) ≤ k →
  linked k G n → a ∈ accomplices G → has_edge G n a = true.
Proof.
  intros Hwf Hk (picked & Hnd & Hlen & Hp) Ha.
  assert (picked ⊆+ accomplices G) as Hsub.
  { apply NoDup_submseteq; [done|]. intros b Hb.
    destruct (Hp b Hb) as [Hacc Hedge].
    apply list_elem_of_filter. split; [done|].
    apply has_edge_is_Some in Hedge. by apply (wf_closed G Hwf) in Hedge as [_ ?]. }
  assert (picked ≡ₚ accomplices G) as Hperm.
  { apply submseteq_length_Permutation; [done | lia]. }
  rewrite <- Hperm in Ha. by apply Hp.
Qed.

Lemma link_all_present G n picked :
  (∀ a, a ∈ picked → has_edge G n a = true) → foldl (link n) G picked = G.
Proof.
  induction picked as [|a picked IH]; intros Hp; simpl; [done|].
  unfold link at 2. rewrite (Hp a) by left. apply IH. intros b Hb. apply Hp. by right.
Qed.

Section saturated.
Context {R : Type} `{RandomSource R}.

Lemma augment_node_saturated k n G (r : R) G' r' :
  (is_fraud G n → ∀ a, a ∈ accomplices G → has_edge G n a = true) →
  augment_node k n (G, r) = Ok (G', r') → G' = G.
Proof.
  intros Hsat. destruct (decide (is_fraud G n)) as [Hfr|Hfr].
  - unfold augment_node. unfold is_fraud in Hfr. rewrite Hfr.
    intros ([picked r1] & [Hsub _]%sample_Ok & [= <- <-])%bind_Ok.
    apply link_all_present. intros a Ha. apply Hsat; [done|].
    by eapply elem_of_submseteq.
  - rewrite augment_node_skip by done. by intros [= <- <-].
Qed.

Lemma augment_loop_saturated k ns G (r : R) G' r' :
  (∀ n a, n ∈ ns → is_fraud G n → a ∈ accomplices G → has_edge G n a = true) →
  for_each ns (augment_node k) (G, r) = Ok (G', r') → G' = G.
Proof.
  revert r. induction ns as [|n ns IH]; intros r Hsat; [by intros [= <- <-]|].
  rewrite for_each_cons. intros ([G1 r1] & Hstep & Hrest)%bind_Ok.
  apply augment_node_saturated in Hstep as ->.
  - eapply IH; [|done]. intros m a Hm. apply Hsat. by right.
  - intros Hfr a. apply Hsat; [left | done].
Qed.

(** Without a Fraud node in the list, the loop does nothing and draws
    nothing. *)
Lemma augment_loop_no_fraud k ns G (r : R) :
  (∀ n, n ∈ ns → ¬ is_fraud G n) →
  for_each ns (augment_node k) (G, r) = Ok (G, r).
Proof.
  induction ns as [|n ns IH]; intros Hns; [done|].
  rewrite for_each_cons, augment_node_skip by (apply Hns; left).
  simpl. apply IH. intros m Hm. apply Hns. by right.
Qed.

End saturated.

(** ** The executable source stays in range *)

Lemma lcg_random_range s : (0 <= (Lcg.random s).1 <= 1)%Q.
Proof.
  unfold Lcg.random. cbn [fst].
  assert (0 ≤ Lcg.step s `div` 65536 < 32768) as Hz.
  { unfold Lcg.step.
    pose proof (Z.mod_pos_bound (1103515245 * s + 12345) 2147483648 eq_refl).
    split; [apply Z.div_pos; lia | apply Z.div_lt_upper_bound; lia]. }
  unfold Qle. simpl. lia.
Qed.

Lemma lcg_uniform_range (s : Z) (a b : Q) :
  (a <= b)%Q → (a <= (Lcg.uniform s a b).1 <= b)%Q.
Proof.
  intros Hab. unfold Lcg.uniform.
  pose proof (lcg_random_range s) as Hx.
  destruct (Lcg.random s) as [x s1]. cbn [fst] in *.
  rewrite Qred_correct. split; nra.
Qed.

(** ** The stages of a run *)

Section extras_generate.
Context {R : Type} `{RandomSource R} `{BarabasiAlbert R}.

Lemma generate_base fuel num_nodes target_edges initial_belief state_distribution
    (ambient : R) G counts r' :
  generate_synthetic_network fuel num_nodes target_edges
    initial_belief state_distribution ambient = Ok (G, counts, r') →
  ∃ G0 r0 G1 existing_edges r1,
    barabasi_albert_graph num_nodes (Z.max 1 (target_edges `div` num_nodes)) (seed 42)
      = Ok (G0, r0) ∧
    simple_on (seq 0 (Z.to_nat num_nodes)) G0 ∧
    top_up fuel target_edges (g_nodes G0) G0 (list_to_set (edges G0)) r0
      = Ok (G1, existing_edges, r1) ∧
    relabels G1 G ∧
    for_each (g_nodes G1)
      (assign_node (default default_initial_belief initial_belief)
         (default default_state_distribution state_distribution))
      (G1, {[ "Fraud" := 0; "Accomplice" := 0; "Honest" := 0 ]}, r1)
    = Ok (G, counts, r').
Proof.
  intros (G0 & r0 & G1 & ex & r1 & Hba & Htop & Hassign)%generate_stages.
  exists G0, r0, G1, ex, r1.
  pose proof (barabasi_albert_Ok _ _ _ _ _ Hba) as [_ Hso].
  pose proof (assign_roles_Ok _ _ _ _ _ _ _ Hassign) as [Hrl _].
  done.
Qed.

End extras_generate.

(** * The claims *)

(** C1, as the code has it.  Whenever [generate_synthetic_network]
    produces a graph, the graph has exactly [num_nodes] nodes, its edge
    count is at least [target_edges], and it has no duplicate edge: the
    edge view repeats no entry, lists no pair of nodes under both
    orientations, and is as long as the edge count.  A graph is produced
    only when [num_nodes >= 2], [target_edges // num_nodes < num_nodes] and
    [target_edges] is at most the number [num_nodes (num_nodes - 1) / 2] of
    node pairs. *)
Theorem generated_graph_shape {R : Type} `{RandomSource R} `{BarabasiAlbert R}
    fuel num_nodes target_edges initial_belief state_distribution
    (ambient : R) G counts r' :
  generate_synthetic_network fuel num_nodes target_edges
    initial_belief state_distribution ambient = Ok (G, counts, r') →
  Z.of_nat (number_of_nodes G) = num_nodes ∧
  target_edges ≤ Z.of_nat (number_of_edges G) ∧
  no_duplicate_edges G ∧
  length (edges G) = number_of_edges G ∧
  2 ≤ num_nodes ∧
  target_edges `div` num_nodes < num_nodes ∧
  target_edges ≤ (num_nodes * (num_nodes - 1)) `div` 2.
Proof.
  intros Hrun.
  pose proof (generate_Ok _ _ _ _ _ _ _ _ _ Hrun) as (Hn & Hso & Hge & _).
  assert (target_edges `div` num_nodes < num_nodes) as Hm.
  { destruct (generate_base _ _ _ _ _ _ _ _ _ Hrun) as (G0 & r0 & _ & _ & _ & Hba & _).
    pose proof (barabasi_albert_spec num_nodes
                  (Z.max 1 (target_edges `div` num_nodes)) (seed 42)) as Hspec.
    rewrite Hba in Hspec. lia. }
  split_and!; [| done | | | done | done |].
  - unfold number_of_nodes. rewrite (so_nodes _ _ Hso), length_seq. lia.
  - apply edges_no_duplicate, (so_wf _ _ Hso).
  - symmetry. apply number_of_edges_length, (so_wf _ _ Hso).
  - destruct (Z_le_gt_dec target_edges ((num_nodes * (num_nodes - 1)) `div` 2))
      as [Hle|Hgt]; [done|].
    rewrite generate_exhausted in Hrun by lia. discriminate Hrun.
Qed.

Lemma generated_graph_shape_witness :
  ∃ G counts r',
    generate_synthetic_network (R := Z) 50 3 3 None None 0 = Ok (G, counts, r') ∧
    Z.of_nat (number_of_nodes G) = 3 ∧
    3 ≤ Z.of_nat (number_of_edges G) ∧
    no_duplicate_edges G ∧
    length (edges G) = number_of_edges G ∧
    2 ≤ 3 ∧
    3 `div` 3 < 3 ∧
    3 ≤ (3 * (3 - 1)) `div` 2.
Proof.
  destruct (generate_synthetic_network (R := Z) 50 3 3 None None 0)
    as [[[G counts] r']| |] eqn:E; [| by_running E ..].
  exists G, counts, r'. split; [reflexivity|].
  exact (generated_graph_shape _ _ _ _ _ _ _ _ _ E).
Defined.

(** C1 as stated fails: it promises a graph for every configuration with
    [num_nodes >= 2], [target_edges >= 0] and well-formed distributions.
    With two nodes, the default distributions and [target_edges = 4] the
    call ends with the generator's [NetworkXError]
    ([m = max(1, 4 // 2) = 2] is not below [num_nodes]); with
    [target_edges = 2] the two nodes have one pair only and the call is
    still in the top-up loop after any number of iterations. *)
Lemma valid_configuration_without_graph :
  generate_synthetic_network (R := Z) 50 2 4 None None 0 = Raise NetworkXError ∧
  (∀ fuel, generate_synthetic_network (R := Z) fuel 2 2 None None 0 = OutOfFuel) ∧
  (∃ q, prior_sum default_initial_belief = Some q ∧ (q == 1)%Q) ∧
  (∃ q, prior_sum default_state_distribution = Some q ∧ (q == 1)%Q).
Proof.
  split_and!.
  - vm_compute. reflexivity.
  - intros fuel. apply generate_exhausted; by vm_compute.
  - eexists. split; [vm_compute; reflexivity | reflexivity].
  - eexists. split; [vm_compute; reflexivity | reflexivity].
Qed.

(** C2.  The top-up loop does not terminate for every configuration: with
    [num_nodes = 5] and [target_edges = 11] the base graph is built, the ten
    node pairs cannot hold eleven edges, and the call is still in the loop
    after any number of iterations. *)
Theorem top_up_hangs_5_11 {R : Type} `{RandomSource R} `{BarabasiAlbert R}
    fuel initial_belief state_distribution (ambient : R) :
  generate_synthetic_network fuel 5 11 initial_belief state_distribution ambient
    = OutOfFuel.
Proof. by apply generate_exhausted. Qed.

(** C3, as the code has it.  There is no validation step.  With
    [num_nodes < 2] the call fails before a graph exists: with
    [ZeroDivisionError] when [num_nodes = 0], otherwise with the
    generator's [NetworkXError].  A negative [target_edges] is not
    rejected: with [num_nodes >= 2] the call builds the graph (nodes,
    edges, attributes), counts the roles and leaves the generator as it
    does for [target_edges = 0]; the two runs differ in what records
    [target_edges] itself, the entry of [G.graph] and with it the report
    and the saved file.  A [state_distribution] that lacks a category makes
    the call fail with [KeyError] for the first missing category, in the
    role assignment, after the topology has been generated. *)
Theorem configuration_errors {R : Type} `{RandomSource R} `{BarabasiAlbert R}
    fuel num_nodes target_edges initial_belief state_distribution (ambient : R) :
  (num_nodes < 2 →
     ∃ e, (num_nodes = 0 ∧ e = ZeroDivisionError ∨ num_nodes ≠ 0 ∧ e = NetworkXError) ∧
          generate_topology fuel num_nodes target_edges (seed 42) = Raise e ∧
          generate_synthetic_network fuel num_nodes target_edges
            initial_belief state_distribution ambient = Raise e) ∧
  (2 ≤ num_nodes → target_edges < 0 →
     generate_synthetic_network fuel num_nodes target_edges
       initial_belief state_distribution ambient
     = generate_synthetic_network fuel num_nodes 0
       initial_belief state_distribution ambient ∧
     graph_metadata num_nodes target_edges !! "num_nodes"
     = graph_metadata num_nodes 0 !! "num_nodes" ∧
     graph_metadata num_nodes target_edges !! "target_edges"
     ≠ graph_metadata num_nodes 0 !! "target_edges") ∧
  (∀ distribution key G r1,
     state_distribution = Some distribution →
     first_missing distribution = Some key →
     generate_topology fuel num_nodes target_edges (seed 42) = Ok (G, r1) →
     generate_synthetic_network fuel num_nodes target_edges
       initial_belief state_distribution ambient = Raise (KeyError key)).
Proof.
  split_and!.
  - intros Hn. unfold generate_synthetic_network, generate_topology, floordiv.
    case_bool_decide as Hz; simpl.
    + exists ZeroDivisionError. split_and!; [by left | done | done].
    + exists NetworkXError.
      pose proof (barabasi_albert_spec num_nodes
                    (Z.max 1 (target_edges `div` num_nodes)) (seed 42)) as Hba.
      destruct (barabasi_albert_graph _ _ _) as [[G r1]|e|]; [lia | | done].
      destruct Hba as [-> _]. split_and!; [by right | done | done].
  - intros Hn Ht. split_and!.
    + unfold generate_synthetic_network, generate_topology, floordiv.
      rewrite bool_decide_eq_false_2 by lia. simpl.
      assert (target_edges `div` num_nodes < 0) by (apply Z.div_lt_upper_bound; lia).
      rewrite Z.div_0_l by lia.
      replace (Z.max 1 (target_edges `div` num_nodes)) with (Z.max 1 0) by lia.
      destruct (barabasi_albert_graph _ _ _) as [[G r1]|e|]; [| done | done]. simpl.
      by rewrite !top_up_done by lia.
    + unfold graph_metadata. by simplify_map_eq.
    + unfold graph_metadata. simplify_map_eq. intros [= Heq]. lia.
  - intros distribution key G r1 -> Hkey Htopo.
    unfold generate_synthetic_network. rewrite Htopo. simpl.
    apply generate_topology_Ok in Htopo as (Hn & Hso & _).
    unfold assign_roles. rewrite (so_nodes _ _ Hso).
    destruct (Z.to_nat num_nodes) as [|k] eqn:Hk; [lia|].
    change (seq 0 (S k)) with (0%nat :: seq 1 k).
    by rewrite for_each_cons, (assign_node_missing _ _ key).
Qed.

Lemma configuration_errors_witness :
  (∃ e, generate_topology (R := Z) 5 1 7 (seed 42) = Raise e ∧
        generate_synthetic_network (R := Z) 5 1 7 None None 0 = Raise e) ∧
  (generate_synthetic_network (R := Z) 5 2 (-3) None None 0
     = generate_synthetic_network (R := Z) 5 2 0 None None 0 ∧
   graph_metadata 2 (-3) !! "num_nodes" = graph_metadata 2 0 !! "num_nodes" ∧
   graph_metadata 2 (-3) !! "target_edges" ≠ graph_metadata 2 0 !! "target_edges") ∧
  generate_synthetic_network (R := Z) 5 2 1 None (Some {[ "Fraud" := 1%Q ]}) 0
    = Raise (KeyError "Accomplice").
Proof.
  pose proof (configuration_errors (R := Z) 5 1 7 None None 0) as (H1 & _ & _).
  pose proof (configuration_errors (R := Z) 5 2 (-3) None None 0) as (_ & H2 & _).
  pose proof (configuration_errors (R := Z) 5 2 1 None (Some {[ "Fraud" := 1%Q ]}) 0)
    as (_ & _ & H3).
  split; [|split].
  - destruct H1 as (e & _ & Ht & Hg); [lia|]. exists e. split; assumption.
  - apply H2; lia.
  - destruct (generate_topology (R := Z) 5 2 1 (seed 42)) as [[G r1]| |] eqn:E;
      [| by_running E ..].
    eapply H3; [reflexivity | | reflexivity]. by vm_compute.
Defined.

(** C3 as stated fails: a negative [target_edges] and a distribution that
    sums to 3/2 both yield a graph, and a prior without the Accomplice
    entry is only noticed by the role assignment, when the topology
    exists. *)
Lemma invalid_configuration_accepted :
  (∃ G counts r',
     generate_synthetic_network (R := Z) 5 2 (-1) None None 0 = Ok (G, counts, r')) ∧
  (∃ G counts r',
     generate_synthetic_network (R := Z) 5 2 1 None
       (Some {[ "Fraud" := 1 # 2; "Accomplice" := 1 # 2; "Honest" := 1 # 2 ]}) 0
     = Ok (G, counts, r')) ∧
  (∃ G r1,
     generate_topology (R := Z) 5 2 1 (seed 42) = Ok (G, r1) ∧
     generate_synthetic_network (R := Z) 5 2 1 (Some {[ "Fraud" := 1%Q ]}) None 0
     = Raise (KeyError "Accomplice")).
Proof.
  split_and!.
  - destruct (generate_synthetic_network (R := Z) 5 2 (-1) None None 0)
      as [[[G counts] r']| |] eqn:E; [| by_running E ..].
    exists G, counts, r'. reflexivity.
  - destruct (generate_synthetic_network (R := Z) 5 2 1 None _ 0)
      as [[[G counts] r']| |] eqn:E; [| by_running E ..].
    exists G, counts, r'. reflexivity.
  - destruct (generate_topology (R := Z) 5 2 1 (seed 42))
      as [[G r1]| |] eqn:E; [| by_running E ..].
    exists G, r1. split; [reflexivity|]. by vm_compute.
Qed.

(** C4.  Two runs of [generate_synthetic_network] on the same
    configuration that both return produce the same graph: the same node
    keys, the same edge view, the same adjacency with the same weights, and
    the same node attributes.  Neither the generator state on entry (line
    29 replaces it with the one seeded by 42, from which the topology and
    the roles are drawn) nor the fuel given to the model matters. *)
Theorem generation_reproducible {R : Type} `{RandomSource R} `{BarabasiAlbert R}
    fuel1 fuel2 num_nodes target_edges initial_belief state_distribution
    (ambient1 ambient2 : R) G1 counts1 r1 G2 counts2 r2 :
  generate_synthetic_network fuel1 num_nodes target_edges
    initial_belief state_distribution ambient1 = Ok (G1, counts1, r1) →
  generate_synthetic_network fuel2 num_nodes target_edges
    initial_belief state_distribution ambient2 = Ok (G2, counts2, r2) →
  g_nodes G1 = g_nodes G2 ∧ edges G1 = edges G2 ∧
  g_adj G1 = g_adj G2 ∧ g_attr G1 = g_attr G2 ∧
  counts1 = counts2 ∧ r1 = r2.
Proof.
  intros Hrun1 Hrun2.
  apply (generate_more_fuel _ (fuel1 `max` fuel2)%nat _ _ _ _ _ ambient1) in Hrun1; [|lia].
  apply (generate_more_fuel _ (fuel1 `max` fuel2)%nat _ _ _ _ _ ambient1) in Hrun2; [|lia].
  rewrite Hrun1 in Hrun2. by injection Hrun2 as <- <- <-.
Qed.

Lemma generation_reproducible_witness :
  ∃ G1 counts1 r1 G2 counts2 r2,
    generate_synthetic_network (R := Z) 9 4 5 None None 0 = Ok (G1, counts1, r1) ∧
    generate_synthetic_network (R := Z) 50 4 5 None None 7 = Ok (G2, counts2, r2) ∧
    g_nodes G1 = g_nodes G2 ∧ edges G1 = edges G2 ∧
    g_adj G1 = g_adj G2 ∧ g_attr G1 = g_attr G2 ∧
    counts1 = counts2 ∧ r1 = r2.
Proof.
  destruct (generate_synthetic_network (R := Z) 9 4 5 None None 0)
    as [[[G1 counts1] r1]| |] eqn:E1; [| by_running E1 ..].
  destruct (generate_synthetic_network (R := Z) 50 4 5 None None 7)
    as [[[G2 counts2] r2]| |] eqn:E2; [| by_running E2 ..].
  exists G1, counts1, r1, G2, counts2, r2.
  split; [reflexivity|]. split; [reflexivity|].
  exact (generation_reproducible _ _ _ _ _ _ _ _ _ _ _ _ _ _ E1 E2).
Defined.

(** C5, as the code has it.  After the pass with
    [max_accomplice_edges = k], every Fraud node has at least
    [min(k, number of Accomplice nodes)] edges to Accomplice nodes, where
    an edge that existed before the pass counts (line 57 keeps it and adds
    nothing), and the edge view has no duplicate. *)
Theorem augmentation_links {R : Type} `{RandomSource R} G k (r : R) G' r' :
  graph_wf G →
  add_fraud_accomplice_edges G k r = Ok (G', r') →
  (∀ n, n ∈ g_nodes G → is_fraud G n →
     Z.min k (Z.of_nat (length (accomplices G))) ≤ Z.of_nat (accomplice_edges G' n)) ∧
  no_duplicate_edges G'.
Proof.
  intros Hwf (Hext & _ & _ & Hl)%add_fraud_accomplice_edges_Ok. split.
  - intros n Hn Hfr.
    replace (accomplices G) with (accomplices G')
      by (by apply extends_accomplices).
    apply linked_accomplice_edges, Hl; [apply Hwf | done | done].
  - apply edges_no_duplicate. rewrite (ext_nodes _ _ Hext). apply Hwf.
Qed.

Lemma augmentation_links_witness :
  ∃ G' r',
    add_fraud_accomplice_edges (R := Z) collusion_open 2 0 = Ok (G', r') ∧
    (∀ n, n ∈ g_nodes collusion_open → is_fraud collusion_open n →
       Z.min 2 (Z.of_nat (length (accomplices collusion_open)))
       ≤ Z.of_nat (accomplice_edges G' n)) ∧
    no_duplicate_edges G'.
Proof.
  destruct (add_fraud_accomplice_edges (R := Z) collusion_open 2 0)
    as [[G' r']| |] eqn:E; [| by_running E ..].
  exists G', r'. split; [reflexivity|].
  exact (augmentation_links collusion_open 2 0 G' r' collusion_open_wf E).
Defined.

(** C5 as stated fails: the Fraud node 0 is already linked to the only
    Accomplice node, the pass with [k = 1] adds nothing, and so node 0 has
    no edge to an Accomplice node that did not exist before, where
    [min(k, 1) = 1] are claimed. *)
Lemma existing_link_is_not_new :
  ∃ G' r',
    add_fraud_accomplice_edges (R := Z) collusion_demo 1 0 = Ok (G', r') ∧
    graph_wf collusion_demo ∧
    (0%nat ∈ g_nodes collusion_demo ∧ is_fraud collusion_demo 0%nat) ∧
    Z.of_nat (new_accomplice_edges collusion_demo G' 0%nat)
    < Z.min 1 (Z.of_nat (length (accomplices collusion_demo))).
Proof.
  destruct (add_fraud_accomplice_edges (R := Z) collusion_demo 1 0)
    as [[G' r']| |] eqn:E; [| by_running E ..].
  exists G', r'. split; [reflexivity|].
  vm_compute in E. injection E as <- <-.
  split_and!; [apply collusion_demo_wf | left | by vm_compute | by vm_compute].
Qed.

(** C6.  Two passes in succession over a graph never decrease the edge
    count, and after each of them the edge view has no duplicate. *)
Theorem augmentation_twice {R : Type} `{RandomSource R} G k (r : R) G1 r1 G2 r2 :
  graph_wf G →
  add_fraud_accomplice_edges G k r = Ok (G1, r1) →
  add_fraud_accomplice_edges G1 k r1 = Ok (G2, r2) →
  (number_of_edges G ≤ number_of_edges G1 ≤ number_of_edges G2)%nat ∧
  no_duplicate_edges G1 ∧ no_duplicate_edges G2.
Proof.
  intros Hwf (He1 & Hwf1 & _)%add_fraud_accomplice_edges_Ok
             (He2 & Hwf2 & _)%add_fraud_accomplice_edges_Ok.
  split_and!.
  - by apply extends_number_of_edges.
  - by apply extends_number_of_edges.
  - apply edges_no_duplicate, Hwf1, Hwf.
  - apply edges_no_duplicate, Hwf2, Hwf1, Hwf.
Qed.

Lemma augmentation_twice_witness :
  ∃ G1 r1 G2 r2,
    add_fraud_accomplice_edges (R := Z) collusion_open 1 0 = Ok (G1, r1) ∧
    add_fraud_accomplice_edges (R := Z) G1 1 r1 = Ok (G2, r2) ∧
    (number_of_edges collusion_open ≤ number_of_edges G1 ≤ number_of_edges G2)%nat ∧
    no_duplicate_edges G1 ∧ no_duplicate_edges G2.
Proof.
  destruct (add_fraud_accomplice_edges (R := Z) collusion_open 1 0)
    as [[G1 r1]| |] eqn:E1; [| by_running E1 ..].
  exists G1, r1.
  pose proof E1 as E1'. vm_compute in E1'. injection E1' as <- <-.
  lazymatch goal with
  | |- context [add_fraud_accomplice_edges ?g ?k ?r] =>
      destruct (add_fraud_accomplice_edges g k r)
        as [[G2 r2]| |] eqn:E2; [| by_running E2 ..]
  end.
  exists G2, r2. split; [reflexivity|]. split; [reflexivity|].
  exact (augmentation_twice _ _ _ _ _ _ _ collusion_open_wf E1 E2).
Defined.





(** C9.  The augmentation pass changes edges only: the node keys are the
    same, in the same order, and so is every attribute of every node. *)
Theorem augmentation_frame {R : Type} `{RandomSource R} G k (r : R) G' r' :
  add_fraud_accomplice_edges G k r = Ok (G', r') →
  g_nodes G' = g_nodes G ∧
  g_attr G' = g_attr G ∧
  ∀ n key, node_get G' n key = node_get G n key.
Proof.
  intros (Hext & _)%add_fraud_accomplice_edges_Ok.
  split_and!; [apply Hext | apply Hext |].
  intros n key. by apply extends_node_get.
Qed.

Lemma augmentation_frame_witness :
  ∃ G' r',
    add_fraud_accomplice_edges (R := Z) collusion_open 2 0 = Ok (G', r') ∧
    g_nodes G' = g_nodes collusion_open ∧
    g_attr G' = g_attr collusion_open ∧
    ∀ n key, node_get G' n key = node_get collusion_open n key.
Proof.
  destruct (add_fraud_accomplice_edges (R := Z) collusion_open 2 0)
    as [[G' r']| |] eqn:E; [| by_running E ..].
  exists G', r'. split; [reflexivity|].
  exact (augmentation_frame _ _ _ _ _ E).
Defined.

(** C10.  The graph that [generate_synthetic_network] produces has no
    self-loop, and the augmentation pass adds none: after a pass over a
    graph without self-loops no node is its own neighbour. *)
Theorem no_self_loops {R : Type} `{RandomSource R} `{BarabasiAlbert R}
    fuel num_nodes target_edges initial_belief state_distribution
    (ambient : R) G counts r1 :
  generate_synthetic_network fuel num_nodes target_edges
    initial_belief state_distribution ambient = Ok (G, counts, r1) →
  (∀ n, has_edge G n n = false) ∧
  (∀ G0 k (r : R) G' r',
     (∀ n, has_edge G0 n n = false) →
     add_fraud_accomplice_edges G0 k r = Ok (G', r') →
     ∀ n, has_edge G' n n = false) ∧
  (∀ k G' r', add_fraud_accomplice_edges G k r1 = Ok (G', r') →
     ∀ n, has_edge G' n n = false).
Proof.
  intros (_ & Hso & _)%generate_Ok.
  assert (∀ G0 k (r : R) G' r', loop_free G0 →
            add_fraud_accomplice_edges G0 k r = Ok (G', r') → loop_free G') as Hadd.
  { intros G0 k r G' r' Hlf (_ & _ & Hlf' & _)%add_fraud_accomplice_edges_Ok. auto. }
  split_and!.
  - apply Hso.
  - apply Hadd.
  - intros k G' r'. apply Hadd, Hso.
Qed.

Lemma no_self_loops_witness :
  ∃ G counts r1,
    generate_synthetic_network (R := Z) 9 4 5 None None 0
      = Ok (G, counts, r1) ∧
    (∀ n, has_edge G n n = false) ∧
    (∀ G0 k (r : Z) G' r',
       (∀ n, has_edge G0 n n = false) →
       add_fraud_accomplice_edges G0 k r = Ok (G', r') →
       ∀ n, has_edge G' n n = false) ∧
    (∀ k G' r', add_fraud_accomplice_edges G k r1 = Ok (G', r') →
       ∀ n, has_edge G' n n = false).
Proof.
  destruct (generate_synthetic_network (R := Z) 9 4 5 None None 0)
    as [[[G counts] r1]| |] eqn:E; [| by_running E ..].
  exists G, counts, r1. split; [reflexivity|].
  exact (no_self_loops _ _ _ _ _ _ _ _ _ E).
Defined.

(** * Further properties *)

(** X1.  In a well-formed graph [G.number_of_edges()], half the sum of the
    degrees, is the length of the edge view [G.edges()], and the view
    lists no unordered pair twice. *)
Theorem edge_count_is_view_length G :
  graph_wf G →
  number_of_edges G = length (edges G) ∧ no_duplicate_edges G.
Proof.
  intros Hwf. split; [by apply number_of_edges_length|].
  apply edges_no_duplicate, Hwf.
Qed.

Lemma edge_count_is_view_length_witness :
  number_of_edges collusion_open = length (edges collusion_open) ∧
  no_duplicate_edges collusion_open.
Proof. exact (edge_count_is_view_length collusion_open collusion_open_wf). Defined.

(** X2.  With at least two nodes, a target that the generator accepts
    ([target_edges // num_nodes < num_nodes]) and that exceeds the number
    of node pairs, [generate_synthetic_network] is still in its top-up loop
    after any number of iterations. *)
Theorem top_up_cannot_finish {R : Type} `{RandomSource R} `{BarabasiAlbert R}
    fuel num_nodes target_edges initial_belief state_distribution (ambient : R) :
  2 ≤ num_nodes →
  target_edges `div` num_nodes < num_nodes →
  (num_nodes * (num_nodes - 1)) `div` 2 < target_edges →
  generate_synthetic_network fuel num_nodes target_edges
    initial_belief state_distribution ambient = OutOfFuel.
Proof. apply generate_exhausted. Qed.

Lemma top_up_cannot_finish_witness :
  generate_synthetic_network (R := Z) 1000 2 2 None None 0 = OutOfFuel.
Proof.
  apply (top_up_cannot_finish (R := Z) 1000 2 2 None None 0); by vm_compute.
Defined.

(** X3.  The role counts that [generate_synthetic_network] reports are
    the numbers of nodes of the returned graph with that [true_state], and
    they add up to [num_nodes]. *)
Theorem role_counts_match {R : Type} `{RandomSource R} `{BarabasiAlbert R}
    fuel num_nodes target_edges initial_belief state_distribution
    (ambient : R) G counts r' :
  generate_synthetic_network fuel num_nodes target_edges
    initial_belief state_distribution ambient = Ok (G, counts, r') →
  counts !! "Fraud" = Some (Z.of_nat (count_true_state G "Fraud")) ∧
  counts !! "Accomplice" = Some (Z.of_nat (count_true_state G "Accomplice")) ∧
  counts !! "Honest" = Some (Z.of_nat (count_true_state G "Honest")) ∧
  Z.of_nat (count_true_state G "Fraud" + count_true_state G "Accomplice"
            + count_true_state G "Honest") = num_nodes.
Proof.
  intros Hrun.
  pose proof (generate_Ok _ _ _ _ _ _ _ _ _ Hrun) as (Hn & Hso & _ & Hlab).
  apply generate_base in Hrun as (G0 & r0 & G1 & ex & r1 & _ & _ & _ & Hrl & Hloop).
  assert (NoDup (g_nodes G1)) as Hnd.
  { rewrite <- (rl_nodes _ _ Hrl). apply Hso. }
  unfold count_true_state. rewrite (rl_nodes _ _ Hrl).
  rewrite !(assign_loop_counts _ _ _ _ _ _ _ _ _ _ Hnd Hloop).
  split_and!; [done | done | done |].
  rewrite true_state_partition.
  - rewrite <- (rl_nodes _ _ Hrl), (so_nodes _ _ Hso), length_seq. lia.
  - intros n Hn'. rewrite <- (rl_nodes _ _ Hrl) in Hn'.
    destruct (node_labelled_get _ _ _ (Hlab n Hn')) as ((s & Hs & Hc) & _). eauto.
Qed.

Lemma role_counts_match_witness :
  ∃ G counts r',
    generate_synthetic_network (R := Z) 9 4 5 None None 0 = Ok (G, counts, r') ∧
    counts !! "Fraud" = Some (Z.of_nat (count_true_state G "Fraud")) ∧
    counts !! "Accomplice" = Some (Z.of_nat (count_true_state G "Accomplice")) ∧
    counts !! "Honest" = Some (Z.of_nat (count_true_state G "Honest")) ∧
    Z.of_nat (count_true_state G "Fraud" + count_true_state G "Accomplice"
              + count_true_state G "Honest") = 4.
Proof.
  destruct (generate_synthetic_network (R := Z) 9 4 5 None None 0)
    as [[[G counts] r']| |] eqn:E; [| by_running E ..].
  exists G, counts, r'. split; [reflexivity|].
  exact (role_counts_match _ _ _ _ _ _ _ _ _ E).
Defined.

(** X4.  The edge count of the returned graph is exactly the larger of the
    base graph's edge count and [target_edges]: the top-up adds one edge
    per accepted pair and stops at the target. *)
Theorem edge_count_exact {R : Type} `{RandomSource R} `{BarabasiAlbert R}
    fuel num_nodes target_edges initial_belief state_distribution
    (ambient : R) G counts r' :
  generate_synthetic_network fuel num_nodes target_edges
    initial_belief state_distribution ambient = Ok (G, counts, r') →
  ∃ G0 r0,
    barabasi_albert_graph num_nodes (Z.max 1 (target_edges `div` num_nodes)) (seed 42)
      = Ok (G0, r0) ∧
    Z.of_nat (number_of_edges G)
    = Z.max (Z.of_nat (number_of_edges G0)) target_edges.
Proof.
  intros (G0 & r0 & G1 & ex & r1 & Hba & Hso & Htop & Hrl & _)%generate_base.
  exists G0, r0. split; [done|].
  rewrite (relabels_number_of_edges G1 G) by done.
  rewrite (so_nodes _ _ Hso) in Htop.
  apply top_up_exact in Htop as (_ & _ & Hcnt); [done | done |].
  apply tracks_edges, Hso.
Qed.

Lemma edge_count_exact_witness :
  ∃ G counts r' G0 r0,
    generate_synthetic_network (R := Z) 30 4 5 None None 0 = Ok (G, counts, r') ∧
    barabasi_albert_graph 4 (Z.max 1 (5 `div` 4)) (seed 42) = Ok (G0, r0) ∧
    Z.of_nat (number_of_edges G) = Z.max (Z.of_nat (number_of_edges G0)) 5.
Proof.
  destruct (generate_synthetic_network (R := Z) 30 4 5 None None 0)
    as [[[G counts] r']| |] eqn:E; [| by_running E ..].
  destruct (edge_count_exact _ _ _ _ _ _ _ _ _ E) as (G0 & r0 & Hba & Hcnt).
  exists G, counts, r', G0, r0. split; [reflexivity|]. split; assumption.
Defined.

(** X5.  When [random.uniform(a, b)] stays within [a, b], every edge of the
    returned graph either is an edge of the base graph with its data
    unchanged, or carries exactly one attribute, a weight between 0.1 and
    1. *)
Theorem edge_weights {R : Type} `{RandomSource R} `{BarabasiAlbert R}
    fuel num_nodes target_edges initial_belief state_distribution
    (ambient : R) G counts r' :
  (∀ (r : R) a b, (a <= b)%Q → (a <= (uniform r a b).1 <= b)%Q) →
  generate_synthetic_network fuel num_nodes target_edges
    initial_belief state_distribution ambient = Ok (G, counts, r') →
  ∃ G0 r0,
    barabasi_albert_graph num_nodes (Z.max 1 (target_edges `div` num_nodes)) (seed 42)
      = Ok (G0, r0) ∧
    topped_up (λ w, (1 # 10 <= w <= 1)%Q) G0 G.
Proof.
  intros Huni (G0 & r0 & G1 & ex & r1 & Hba & Hso & Htop & Hrl & _)%generate_base.
  exists G0, r0. split; [done|].
  rewrite (so_nodes _ _ Hso) in Htop.
  apply top_up_exact in Htop as (_ & Htopped & _); [| done | apply tracks_edges, Hso].
  intros x y. rewrite (relabels_neighbors G1 G) by done.
  revert x y. fold (topped_up (λ w, (1 # 10 <= w <= 1)%Q) G0 G1).
  eapply topped_up_weaken; [|done].
  intros w [r <-]. by apply Huni.
Qed.

Lemma edge_weights_witness :
  ∃ G counts r' G0 r0,
    generate_synthetic_network (R := Z) 30 4 5 None None 0 = Ok (G, counts, r') ∧
    barabasi_albert_graph 4 (Z.max 1 (5 `div` 4)) (seed 42) = Ok (G0, r0) ∧
    topped_up (λ w, (1 # 10 <= w <= 1)%Q) G0 G.
Proof.
  destruct (generate_synthetic_network (R := Z) 30 4 5 None None 0)
    as [[[G counts] r']| |] eqn:E; [| by_running E ..].
  assert (∀ (r : Z) a b, (a <= b)%Q → (a <= (uniform r a b).1 <= b)%Q) as Huni
    by (intros r a b; apply lcg_uniform_range).
  destruct (edge_weights (R := Z) _ _ _ _ _ _ _ _ _ Huni E)
    as (G0 & r0 & Hba & Htop).
  exists G, counts, r', G0, r0. split; [reflexivity|]. split; assumption.
Defined.

(** X6.  The lookup set of the top-up loop stays in step with the graph:
    started as the set of the edge view, it holds a pair, in one
    orientation or the other, exactly for the adjacent nodes, also when
    the loop ends. *)
Theorem lookup_set_tracks_edges {R : Type} `{RandomSource R}
    fuel target_edges G (r : R) G' existing_edges' r' :
  graph_wf G → loop_free G →
  top_up fuel target_edges (g_nodes G) G (list_to_set (edges G)) r
    = Ok (G', existing_edges', r') →
  ∀ u v, has_edge G' u v = true ↔
         (u, v) ∈ existing_edges' ∨ (v, u) ∈ existing_edges'.
Proof.
  intros Hwf Hlf Htop.
  apply top_up_exact in Htop as (Htr & _); [done | by split | by apply tracks_edges].
Qed.

Lemma lookup_set_tracks_edges_witness :
  ∃ G' existing_edges' r',
    top_up (R := Z) 30 4 (g_nodes collusion_open) collusion_open
      (list_to_set (edges collusion_open)) 0 = Ok (G', existing_edges', r') ∧
    ∀ u v, has_edge G' u v = true ↔
           (u, v) ∈ existing_edges' ∨ (v, u) ∈ existing_edges'.
Proof.
  destruct (top_up (R := Z) 30 4 (g_nodes collusion_open) collusion_open
              (list_to_set (edges collusion_open)) 0)
    as [[[G' ex'] r']| |] eqn:E; [| by_running E ..].
  exists G', ex', r'. split; [reflexivity|].
  exact (lookup_set_tracks_edges _ _ _ _ _ _ _
           collusion_open_wf collusion_open_loop_free E).
Defined.

(** X7.  The augmentation pass leaves every existing edge with its data,
    and every edge it adds carries no data and joins a Fraud node and an
    Accomplice node. *)
Theorem augmentation_adds_collusion_edges_only {R : Type} `{RandomSource R}
    G k (r : R) G' r' :
  graph_wf G →
  add_fraud_accomplice_edges G k r = Ok (G', r') →
  ∀ x y,
    neighbors G' x !! y = neighbors G x !! y ∨
    (neighbors G x !! y = None ∧ neighbors G' x !! y = Some ∅ ∧
     (is_fraud G x ∧ is_accomplice G y ∨ is_fraud G y ∧ is_accomplice G x)).
Proof.
  intros Hwf Hrun. by apply augment_loop_more in Hrun as (Haug & _).
Qed.

Lemma augmentation_adds_collusion_edges_only_witness :
  ∃ G' r',
    add_fraud_accomplice_edges (R := Z) collusion_open 2 0 = Ok (G', r') ∧
    ∀ x y,
      neighbors G' x !! y = neighbors collusion_open x !! y ∨
      (neighbors collusion_open x !! y = None ∧ neighbors G' x !! y = Some ∅ ∧
       (is_fraud collusion_open x ∧ is_accomplice collusion_open y
        ∨ is_fraud collusion_open y ∧ is_accomplice collusion_open x)).
Proof.
  destruct (add_fraud_accomplice_edges (R := Z) collusion_open 2 0)
    as [[G' r']| |] eqn:E; [| by_running E ..].
  exists G', r'. split; [reflexivity|].
  exact (augmentation_adds_collusion_edges_only _ _ _ _ _ collusion_open_wf E).
Defined.

(** X8.  The pass adds at most [min(k, number of Accomplice nodes)] edges
    for each Fraud node. *)
Theorem augmentation_edge_bound {R : Type} `{RandomSource R} G k (r : R) G' r' :
  graph_wf G →
  add_fraud_accomplice_edges G k r = Ok (G', r') →
  (number_of_edges G' ≤ number_of_edges G
     + length (frauds G) * Z.to_nat (Z.min k (Z.of_nat (length (accomplices G)))))%nat.
Proof.
  intros Hwf Hrun. by apply augment_loop_more in Hrun as (_ & Hcnt & _).
Qed.

Lemma augmentation_edge_bound_witness :
  ∃ G' r',
    add_fraud_accomplice_edges (R := Z) collusion_open 1 0 = Ok (G', r') ∧
    (number_of_edges G' ≤ number_of_edges collusion_open
       + length (frauds collusion_open)
         * Z.to_nat (Z.min 1 (Z.of_nat (length (accomplices collusion_open)))))%nat.
Proof.
  destruct (add_fraud_accomplice_edges (R := Z) collusion_open 1 0)
    as [[G' r']| |] eqn:E; [| by_running E ..].
  exists G', r'. split; [reflexivity|].
  exact (augmentation_edge_bound _ _ _ _ _ collusion_open_wf E).
Defined.

(** X9.  The pass changes nothing when there is nothing to link: without a
    Fraud node it returns the graph and the generator state as they were,
    and without an Accomplice node, or with [max_accomplice_edges = 0], the
    graph it returns is the graph it was given. *)
Theorem augmentation_nothing_to_link {R : Type} `{RandomSource R} G k (r : R) :
  graph_wf G →
  (frauds G = [] → add_fraud_accomplice_edges G k r = Ok (G, r)) ∧
  (accomplices G = [] ∨ k = 0 →
   ∀ G' r', add_fraud_accomplice_edges G k r = Ok (G', r') → G' = G).
Proof.
  intros Hwf. split.
  - intros Hnone. unfold add_fraud_accomplice_edges.
    assert (∀ ns, (∀ n, n ∈ ns → ¬ is_fraud G n) →
                  for_each ns (augment_node k) (G, r) = Ok (G, r)) as Hskip.
    { induction ns as [|n ns IH]; intros Hns; [done|].
      rewrite for_each_cons, augment_node_skip by (apply Hns; left).
      simpl. apply IH. intros m Hm. apply Hns. by right. }
    apply Hskip. intros n Hn Hfr.
    assert (n ∈ frauds G) as Hin by (by apply list_elem_of_filter).
    rewrite Hnone in Hin. by apply elem_of_nil in Hin.
  - intros Hnone G' r' Hrun.
    apply augment_loop_more in Hrun as (_ & _ & Hsame & _); auto.
Qed.

Lemma augmentation_nothing_to_link_witness :
  ∃ G' r',
    add_fraud_accomplice_edges (R := Z) collusion_open 0 0 = Ok (G', r') ∧
    G' = collusion_open.
Proof.
  destruct (add_fraud_accomplice_edges (R := Z) collusion_open 0 0)
    as [[G' r']| |] eqn:E; [| by_running E ..].
  exists G', r'. split; [reflexivity|].
  destruct (augmentation_nothing_to_link (R := Z) collusion_open 0 0 collusion_open_wf)
    as [_ Hsame].
  apply (Hsame (or_intror eq_refl) G' r' E).
Defined.

(** X10.  With [max_accomplice_edges >= 0] the pass returns; with a
    negative bound and a Fraud node in the graph it raises [ValueError]
    (from [random.sample]). *)
Theorem augmentation_returns_or_value_error {R : Type} `{RandomSource R}
    G k (r : R) :
  (0 ≤ k → ∃ G' r', add_fraud_accomplice_edges G k r = Ok (G', r')) ∧
  (k < 0 → (∃ n, n ∈ g_nodes G ∧ is_fraud G n) →
   add_fraud_accomplice_edges G k r = Raise ValueError).
Proof.
  split.
  - apply augment_loop_returns.
  - apply augment_loop_negative.
Qed.

Lemma augmentation_returns_or_value_error_witness :
  (∃ G' r', add_fraud_accomplice_edges (R := Z) collusion_open 5 0 = Ok (G', r')) ∧
  add_fraud_accomplice_edges (R := Z) collusion_open (-1) 0 = Raise ValueError.
Proof.
  split.
  - apply (augmentation_returns_or_value_error (R := Z) collusion_open 5 0). lia.
  - apply (augmentation_returns_or_value_error (R := Z) collusion_open (-1) 0); [lia|].
    exists 0%nat. split; [left | by vm_compute].
Defined.

(** X11.  For a graph that [generate_synthetic_network] returns and a
    colour map that has the three categories, [generate_node_colors] for
    [true_state] or [state] gives one colour per node, in node order, and
    each is the colour the map gives to that node's label. *)
Theorem node_colors_of_generated {R : Type} `{RandomSource R} `{BarabasiAlbert R}
    fuel num_nodes target_edges initial_belief state_distribution
    (ambient : R) G counts r' attribute color_map default_color :
  generate_synthetic_network fuel num_nodes target_edges
    initial_belief state_distribution ambient = Ok (G, counts, r') →
  attribute = "true_state" ∨ attribute = "state" →
  (∀ c, c ∈ categories → is_Some (color_map !! c)) →
  Z.of_nat (length (generate_node_colors G attribute color_map default_color))
    = num_nodes ∧
  Forall2 (λ n colour, ∃ s, node_get G n attribute = Some (VStr s) ∧
                            s ∈ categories ∧ color_map !! s = Some colour)
    (g_nodes G) (generate_node_colors G attribute color_map default_color).
Proof.
  intros (Hn & Hso & _ & Hlab)%generate_Ok Hattr Hmap.
  unfold generate_node_colors. split.
  - rewrite length_fmap, (so_nodes _ _ Hso), length_seq. lia.
  - apply Forall2_fmap_r, Forall_Forall2_diag, Forall_forall. intros n Hin.
    destruct (node_labelled_get _ _ _ (Hlab n Hin))
      as ((ts & Hts & Htsc) & (st & Hst & Hstc) & _).
    unfold node_color.
    destruct Hattr as [-> | ->].
    + exists ts. rewrite Hts. destruct (Hmap ts Htsc) as [col Hcol].
      by rewrite Hcol.
    + exists st. rewrite Hst. destruct (Hmap st Hstc) as [col Hcol].
      by rewrite Hcol.
Qed.

Lemma node_colors_of_generated_witness :
  ∃ G counts r',
    generate_synthetic_network (R := Z) 9 4 5 None None 0 = Ok (G, counts, r') ∧
    Z.of_nat (length (generate_node_colors G "true_state" main_color_map "gray")) = 4 ∧
    Forall2 (λ n colour, ∃ s, node_get G n "true_state" = Some (VStr s) ∧
                              s ∈ categories ∧ main_color_map !! s = Some colour)
      (g_nodes G) (generate_node_colors G "true_state" main_color_map "gray").
Proof.
  destruct (generate_synthetic_network (R := Z) 9 4 5 None None 0)
    as [[[G counts] r']| |] eqn:E; [| by_running E ..].
  exists G, counts, r'. split; [reflexivity|].
  apply (node_colors_of_generated _ _ _ _ _ _ _ _ _ _ _ _ E); [by left|].
  intros c Hc. unfold categories in Hc.
  rewrite !elem_of_cons, elem_of_nil in Hc.
  destruct Hc as [->|[->|[->|[]]]];
    [exists "red" | exists "orange" | exists "green"]; vm_compute; reflexivity.
Defined.

(** X12.  The colours do not depend on the augmentation pass: computed
    after it they are the colours computed before it. *)
Theorem node_colors_survive_augmentation {R : Type} `{RandomSource R}
    G k (r : R) G' r' attribute color_map default_color :
  add_fraud_accomplice_edges G k r = Ok (G', r') →
  generate_node_colors G' attribute color_map default_color
  = generate_node_colors G attribute color_map default_color.
Proof.
  intros (Hext & _)%add_fraud_accomplice_edges_Ok.
  unfold generate_node_colors, node_color. rewrite (ext_nodes _ _ Hext).
  apply list_fmap_ext. intros i n _. by rewrite (extends_node_get G G').
Qed.

Lemma node_colors_survive_augmentation_witness :
  ∃ G' r',
    add_fraud_accomplice_edges (R := Z) collusion_open 2 0 = Ok (G', r') ∧
    generate_node_colors G' "true_state" main_color_map "gray"
    = generate_node_colors collusion_open "true_state" main_color_map "gray".
Proof.
  destruct (add_fraud_accomplice_edges (R := Z) collusion_open 2 0)
    as [[G' r']| |] eqn:E; [| by_running E ..].
  exists G', r'. split; [reflexivity|].
  exact (node_colors_survive_augmentation _ _ _ _ _ _ _ _ E).
Defined.

(** X13.  A target of [num_nodes * num_nodes] edges or more is rejected:
    the attachment parameter [target_edges // num_nodes] is then not below
    [num_nodes], and the call ends with the generator's [NetworkXError]. *)
Theorem target_beyond_square_rejected {R : Type} `{RandomSource R} `{BarabasiAlbert R}
    fuel num_nodes target_edges initial_belief state_distribution (ambient : R) :
  1 ≤ num_nodes →
  num_nodes * num_nodes ≤ target_edges →
  generate_synthetic_network fuel num_nodes target_edges
    initial_belief state_distribution ambient = Raise NetworkXError.
Proof.
  intros Hn Ht. unfold generate_synthetic_network, generate_topology, floordiv.
  rewrite bool_decide_eq_false_2 by lia. simpl.
  assert (num_nodes ≤ target_edges `div` num_nodes) by (apply Z.div_le_lower_bound; lia).
  pose proof (barabasi_albert_spec num_nodes
                (Z.max 1 (target_edges `div` num_nodes)) (seed 42)) as Hba.
  destruct (barabasi_albert_graph _ _ _) as [[G r1]|e|]; [lia | | done].
  by destruct Hba as [-> _].
Qed.

Lemma target_beyond_square_rejected_witness :
  generate_synthetic_network (R := Z) 9 3 9 None None 0 = Raise NetworkXError.
Proof.
  apply (target_beyond_square_rejected (R := Z) 9 3 9 None None 0); lia.
Defined.

(** X14.  The average degree that is reported for the returned graph is
    twice its edge count over [num_nodes], and so at least twice the
    target over [num_nodes]. *)
Theorem average_degree_reported {R : Type} `{RandomSource R} `{BarabasiAlbert R}
    fuel num_nodes target_edges initial_belief state_distribution
    (ambient : R) G counts r' :
  generate_synthetic_network fuel num_nodes target_edges
    initial_belief state_distribution ambient = Ok (G, counts, r') →
  ∃ avg,
    avg_degree G num_nodes = Ok avg ∧
    (avg == inject_Z (2 * Z.of_nat (number_of_edges G)) / inject_Z num_nodes)%Q ∧
    (inject_Z (2 * target_edges) / inject_Z num_nodes <= avg)%Q.
Proof.
  intros (Hn & Hso & Hge & _)%generate_Ok.
  unfold avg_degree. rewrite bool_decide_eq_false_2 by lia.
  eexists. split; [reflexivity|].
  rewrite (degree_sum_edges G (so_wf _ _ Hso)).
  rewrite <- (number_of_edges_length G (so_wf _ _ Hso)).
  rewrite Nat2Z.inj_mul. change (Z.of_nat 2) with 2.
  split; [reflexivity|].
  unfold Qdiv. apply Qmult_le_compat_r.
  - rewrite <- Zle_Qle. lia.
  - apply Qinv_le_0_compat. change 0%Q with (inject_Z 0). rewrite <- Zle_Qle. lia.
Qed.

Lemma average_degree_reported_witness :
  ∃ G counts r' avg,
    generate_synthetic_network (R := Z) 30 4 5 None None 0 = Ok (G, counts, r') ∧
    avg_degree G 4 = Ok avg ∧
    (avg == inject_Z (2 * Z.of_nat (number_of_edges G)) / inject_Z 4)%Q ∧
    (inject_Z (2 * 5) / inject_Z 4 <= avg)%Q.
Proof.
  destruct (generate_synthetic_network (R := Z) 30 4 5 None None 0)
    as [[[G counts] r']| |] eqn:E; [| by_running E ..].
  destruct (average_degree_reported _ _ _ _ _ _ _ _ _ E) as (avg & Havg).
  exists G, counts, r', avg. split; [reflexivity | exact Havg].
Defined.

(** X15.  Generation followed by the augmentation pass keeps what
    generation established: the augmented graph still has [num_nodes]
    nodes, at least [target_edges] edges, no self-loop and no duplicate
    edge, and every node still has its two labels from the three
    categories. *)
Theorem pipeline_keeps_generation_guarantees
    {R : Type} `{RandomSource R} `{BarabasiAlbert R}
    fuel num_nodes target_edges initial_belief state_distribution
    (ambient : R) G counts r1 k (r : R) G' r' :
  generate_synthetic_network fuel num_nodes target_edges
    initial_belief state_distribution ambient = Ok (G, counts, r1) →
  add_fraud_accomplice_edges G k r = Ok (G', r') →
  Z.of_nat (number_of_nodes G') = num_nodes ∧
  target_edges ≤ Z.of_nat (number_of_edges G') ∧
  (∀ n, has_edge G' n n = false) ∧
  no_duplicate_edges G' ∧
  length (edges G') = number_of_edges G' ∧
  ∀ n, n ∈ g_nodes G' →
    (∃ s, node_get G' n "true_state" = Some (VStr s) ∧ s ∈ categories) ∧
    (∃ s, node_get G' n "state" = Some (VStr s) ∧ s ∈ categories).
Proof.
  intros (Hn & Hso & Hge & Hlab)%generate_Ok
         (Hext & Hwf & Hlf & _)%add_fraud_accomplice_edges_Ok.
  specialize (Hwf (so_wf _ _ Hso)). specialize (Hlf (so_loop_free _ _ Hso)).
  split_and!.
  - unfold number_of_nodes.
    rewrite (ext_nodes _ _ Hext), (so_nodes _ _ Hso), length_seq. lia.
  - pose proof (extends_number_of_edges G G' Hext). lia.
  - done.
  - apply edges_no_duplicate, Hwf.
  - symmetry. by apply number_of_edges_length.
  - intros n Hin. rewrite (ext_nodes _ _ Hext) in Hin.
    rewrite !(extends_node_get G G') by done.
    destruct (node_labelled_get _ _ _ (Hlab n Hin)) as (Hts & Hst & _). done.
Qed.

Lemma pipeline_keeps_generation_guarantees_witness :
  ∃ G counts r1 G' r',
    generate_synthetic_network (R := Z) 9 4 5 None None 0 = Ok (G, counts, r1) ∧
    add_fraud_accomplice_edges (R := Z) G 5 r1 = Ok (G', r') ∧
    Z.of_nat (number_of_nodes G') = 4 ∧
    5 ≤ Z.of_nat (number_of_edges G') ∧
    (∀ n, has_edge G' n n = false) ∧
    no_duplicate_edges G' ∧
    length (edges G') = number_of_edges G' ∧
    ∀ n, n ∈ g_nodes G' →
      (∃ s, node_get G' n "true_state" = Some (VStr s) ∧ s ∈ categories) ∧
      (∃ s, node_get G' n "state" = Some (VStr s) ∧ s ∈ categories).
Proof.
  destruct (generate_synthetic_network (R := Z) 9 4 5 None None 0)
    as [[[G counts] r1]| |] eqn:E; [| by_running E ..].
  destruct (augment_loop_returns (R := Z) 5 (g_nodes G) G r1) as (G' & r' & E'); [lia|].
  exists G, counts, r1, G', r'. split; [reflexivity|]. split; [exact E'|].
  exact (pipeline_keeps_generation_guarantees _ _ _ _ _ _ _ _ _ _ _ _ _ E E').
Defined.

(** X16.  When [max_accomplice_edges] is at least the number of Accomplice
    nodes, the pass leaves every Fraud node adjacent to every Accomplice
    node. *)
Theorem augmentation_saturates {R : Type} `{RandomSource R} G k (r : R) G' r' :
  graph_wf G →
  Z.of_nat (length (accomplices G)) ≤ k →
  add_fraud_accomplice_edges G k r = Ok (G', r') →
  ∀ n a, n ∈ g_nodes G → is_fraud G n → a ∈ g_nodes G → is_accomplice G a →
         has_edge G' n a = true.
Proof.
  intros Hwf Hk (Hext & Hwf' & _ & Hl)%add_fraud_accomplice_edges_Ok n a Hn Hfr Ha Hacc.
  apply (linked_all k G' n a); [by apply Hwf' | | |].
  - unfold accomplices. by rewrite (extends_accomplices G G').
  - apply Hl; [apply Hwf | done | done].
  - unfold accomplices. rewrite (extends_accomplices G G') by done.
    by apply list_elem_of_filter.
Qed.

Lemma augmentation_saturates_witness :
  ∃ G' r',
    add_fraud_accomplice_edges (R := Z) collusion_open 2 0 = Ok (G', r') ∧
    has_edge G' 0 1 = true ∧ has_edge G' 0 2 = true.
Proof.
  destruct (add_fraud_accomplice_edges (R := Z) collusion_open 2 0)
    as [[G' r']| |] eqn:E; [| by_running E ..].
  exists G', r'. split; [reflexivity|].
  assert (Z.of_nat (length (accomplices collusion_open)) ≤ 2) as Hk by (vm_compute; discriminate).
  pose proof (augmentation_saturates _ _ _ _ _ collusion_open_wf Hk E) as Hsat.
  split.
  - apply (Hsat 0%nat 1%nat);
      [apply (list_elem_of_lookup_2 _ 0%nat); reflexivity | reflexivity
      |apply (list_elem_of_lookup_2 _ 1%nat); reflexivity | reflexivity].
  - apply (Hsat 0%nat 2%nat);
      [apply (list_elem_of_lookup_2 _ 0%nat); reflexivity | reflexivity
      |apply (list_elem_of_lookup_2 _ 2%nat); reflexivity | reflexivity].
Defined.

(** X17.  After a pass whose bound is at least the number of Accomplice
    nodes, a further pass with a bound [k2 >= 0] returns, whatever the
    generator state, and the graph it returns is the graph it was given;
    with a negative [k2] it raises [ValueError] when the graph has a Fraud
    node and returns the graph unchanged when it has none. *)
Theorem augmentation_saturated_is_stable {R : Type} `{RandomSource R}
    G k (r : R) G1 r1 k2 (r2 : R) :
  graph_wf G →
  Z.of_nat (length (accomplices G)) ≤ k →
  add_fraud_accomplice_edges G k r = Ok (G1, r1) →
  (0 ≤ k2 → ∃ r2', add_fraud_accomplice_edges G1 k2 r2 = Ok (G1, r2')) ∧
  (k2 < 0 → (∃ n, n ∈ g_nodes G1 ∧ is_fraud G1 n) →
   add_fraud_accomplice_edges G1 k2 r2 = Raise ValueError) ∧
  (k2 < 0 → frauds G1 = [] → add_fraud_accomplice_edges G1 k2 r2 = Ok (G1, r2)).
Proof.
  intros Hwf Hk (Hext & Hwf' & _ & Hl)%add_fraud_accomplice_edges_Ok.
  split_and!.
  - intros Hk2.
    destruct (augment_loop_returns k2 (g_nodes G1) G1 r2 Hk2) as (G2 & r2' & Hsecond).
    exists r2'. unfold add_fraud_accomplice_edges. rewrite Hsecond.
    apply augment_loop_saturated in Hsecond as ->; [done|].
    intros n a Hn Hfr Ha. apply (linked_all k); [by apply Hwf' | | | done].
    + unfold accomplices. by rewrite (extends_accomplices G G1).
    + rewrite (ext_nodes _ _ Hext) in Hn. apply Hl; [apply Hwf | done |].
      by apply (extends_is_fraud G G1).
  - apply augment_loop_negative.
  - intros _ Hnone. unfold add_fraud_accomplice_edges.
    apply augment_loop_no_fraud. intros n Hn Hfr.
    assert (n ∈ frauds G1) as Hin by (by apply list_elem_of_filter).
    rewrite Hnone in Hin. by apply elem_of_nil in Hin.
Qed.

Lemma augmentation_saturated_is_stable_witness :
  ∃ G1 r1,
    add_fraud_accomplice_edges (R := Z) collusion_open 2 0 = Ok (G1, r1) ∧
    (∃ r2', add_fraud_accomplice_edges (R := Z) G1 5 r1 = Ok (G1, r2')) ∧
    add_fraud_accomplice_edges (R := Z) G1 (-1) r1 = Raise ValueError.
Proof.
  destruct (add_fraud_accomplice_edges (R := Z) collusion_open 2 0)
    as [[G1 r1]| |] eqn:E; [| by_running E ..].
  exists G1, r1. split; [reflexivity|].
  assert (Z.of_nat (length (accomplices collusion_open)) ≤ 2) as Hk
    by (vm_compute; discriminate).
  split.
  - apply (augmentation_saturated_is_stable _ _ _ _ _ 5 r1 collusion_open_wf Hk E). lia.
  - apply (augmentation_saturated_is_stable _ _ _ _ _ (-1) r1 collusion_open_wf Hk E);
      [lia|].
    exists 0%nat. apply add_fraud_accomplice_edges_Ok in E as (Hext & _).
    split.
    + rewrite (ext_nodes _ _ Hext). left.
    + apply (extends_is_fraud collusion_open G1); [done | reflexivity].
Defined.
